(** * langchain5Q: a chat loop with PostgreSQL memory

    Shallow embedding of [langchain5Q.py] and the properties of its
    fact extractor, fact store, conversation log and prompt assembler.

    Text model.  A Python [str] is a [list ascii], one code point below
    256 per character.  [isspace] is Python's on that range; [lower] and
    [capitalize] follow Python on the ASCII letters and leave the codes
    128..255 as they are, which no test against an ASCII phrase can see.
    Text with a NUL character, which the driver refuses to send, is
    outside the store's domain.

    Database model.  The two tables are lists of rows in the order a
    sequential scan returns them: an INSERT puts its row last, and so does
    an UPDATE the new version of a row.  Each table has the counter of its
    SERIAL column, and the server clock is a counter that every
    transaction ([engine.begin()]) advances, so that [NOW()] differs
    between two transactions.  A SELECT without ORDER BY returns the rows
    in table order. *)

From Equations Require Import Equations.
From Equations.Prop Require Import Logic.
From Stdlib Require Import Ascii String List ZArith Lia Bool Arith Sorted
  Permutation.
Import ListNotations.

Open Scope Z_scope.

(** ** Python strings *)

Module Py.

Definition str := list ascii.

(** A literal of the source. *)
Definition lit (s : string) : str := list_ascii_of_string s.

Definition str_eqb (a b : str) : bool :=
  if list_eq_dec ascii_dec a b then true else false.

(** Exceptions the program can raise. *)
Inductive exn :=
| IndexError      (* list index out of range *)
| ValueError      (* empty separator *)
| DataError       (* the server rejects the value of LIMIT *)
| EndpointError.  (* the completion endpoint failed *)

Inductive result (A : Type) :=
| Ok (a : A)
| Raise (e : exn).
Arguments Ok {A} a.
Arguments Raise {A} e.

(** [c.lower()] and [c.upper()] on one character. *)
Definition lower_char (c : ascii) : ascii :=
  let n := nat_of_ascii c in
  if ((65 <=? n) && (n <=? 90))%nat then ascii_of_nat (n + 32) else c.

Definition upper_char (c : ascii) : ascii :=
  let n := nat_of_ascii c in
  if ((97 <=? n) && (n <=? 122))%nat then ascii_of_nat (n - 32) else c.

(** [s.lower()] *)
Definition lower (s : str) : str := map lower_char s.

(** [s.capitalize()]: first character upper-cased, the rest lower-cased. *)
Definition capitalize (s : str) : str :=
  match s with
  | [] => []
  | c :: t => upper_char c :: lower t
  end.

(** [c.isspace()]: tab, line feed, vertical tab, form feed, carriage
    return, the four separators 28..31, the space, the next-line control
    U+0085 and the no-break space U+00A0. *)
Definition isspace (c : ascii) : bool :=
  let n := nat_of_ascii c in
  (((9 <=? n) && (n <=? 13)) || ((28 <=? n) && (n <=? 32))
   || (n =? 133) || (n =? 160))%nat.

Fixpoint dropwhile (p : ascii -> bool) (s : str) : str :=
  match s with
  | [] => []
  | c :: t => if p c then dropwhile p t else s
  end.

Definition lstrip (s : str) : str := dropwhile isspace s.
Definition rstrip (s : str) : str := rev (dropwhile isspace (rev s)).

(** [s.strip()] *)
Definition strip (s : str) : str := rstrip (lstrip s).

(** [s.startswith(p)] *)
Fixpoint startswith (p s : str) : bool :=
  match p, s with
  | [], _ => true
  | _ :: _, [] => false
  | a :: p', b :: s' => if ascii_dec a b then startswith p' s' else false
  end.

(** [s.find(sub)]: index of the first occurrence, [None] for Python's -1. *)
Fixpoint find (sub s : str) : option nat :=
  if startswith sub s then Some 0%nat
  else match s with
       | [] => None
       | _ :: t => option_map S (find sub t)
       end.

(** [sub in s] *)
Definition contains (sub s : str) : bool :=
  match find sub s with Some _ => true | None => false end.

(** The loop of [s.split(sep)] for a non-empty separator: cut at the
    first occurrence, go on after it. *)
Equations? split_loop (sep s : str) : list str by wf (length s) lt :=
  split_loop [] s := [s];
  split_loop (c :: sep) s with inspect (find (c :: sep) s) := {
    | exist _ None _ := [s];
    | exist _ (Some i) H :=
        firstn i s :: split_loop (c :: sep) (skipn (i + length (c :: sep)) s) }.
Proof.
  rewrite length_skipn. destruct s; [discriminate H | ].
  change (length (a :: s)) with (S (length s)). simpl length. lia.
Qed.

(** [s.split(sep)]; an empty separator raises. *)
Definition split (s sep : str) : result (list str) :=
  match sep with
  | [] => Raise ValueError
  | _ :: _ => Ok (split_loop sep s)
  end.

(** [s.split()]: the maximal runs of characters that are not white space. *)
Fixpoint split_ws (s : str) : list str :=
  match s with
  | [] => []
  | c :: t =>
      if isspace c then split_ws t
      else match t with
           | [] => [[c]]
           | d :: _ =>
               if isspace d then [c] :: split_ws t
               else match split_ws t with
                    | w :: ws => (c :: w) :: ws
                    | [] => [[c]]
                    end
           end
  end.

(** [l[0]] and [l[-1]] *)
Definition first_item {A} (l : list A) : result A :=
  match l with
  | [] => Raise IndexError
  | x :: _ => Ok x
  end.

Fixpoint last_item {A} (l : list A) : result A :=
  match l with
  | [] => Raise IndexError
  | [x] => Ok x
  | _ :: t => last_item t
  end.

(** [sep.join(l)] *)
Fixpoint join (sep : str) (l : list str) : str :=
  match l with
  | [] => []
  | [x] => x
  | x :: t => x ++ sep ++ join sep t
  end.

End Py.

Import Py.

(** ** The database *)

(** A row of [conversations] and a row of [user_facts]. *)
Record conversation := mkConversation {
  conv_id : Z;
  conv_session_id : str;
  conv_role : str;
  conv_content : str;
  conv_created_at : Z }.

Record user_fact := mkFact {
  fact_id : Z;
  fact_session_id : str;
  fact_key : str;
  fact_value : str;
  fact_updated_at : Z }.

(** The messages handed to the chat model. *)
Inductive message :=
| SystemMessage (content : str)
| HumanMessage (content : str)
| AIMessage (content : str).

(** Everything the program acts on: the two tables of the engine, their
    SERIAL counters, the server clock, and the requests received by the
    completion endpoint, oldest first. *)
Record world := mkWorld {
  conversations : list conversation;
  conversations_id_seq : Z;
  user_facts : list user_fact;
  user_facts_id_seq : Z;
  clock : Z;
  requests : list (list message) }.

(** The state after [create_tables()] on a fresh database. *)
Definition initial_world : world :=
  mkWorld [] 1 [] 1 0 [].

(** ** Statements run against the world

    A statement takes the world to a new world and returns a value or
    raises; what was written before an exception stays written. *)

Definition M (A : Type) : Type := world -> world * result A.

Definition ret {A} (a : A) : M A := fun w => (w, Ok a).

Definition bind {A B} (m : M A) (k : A -> M B) : M B :=
  fun w => match m w with
           | (w', Ok a) => k a w'
           | (w', Raise e) => (w', Raise e)
           end.

Definition lift {A} (r : result A) : M A := fun w => (w, r).

Notation "x <- m ;; k" := (bind m (fun x => k))
  (at level 61, m at next level, right associativity).
Notation "m ;; k" := (bind m (fun _ => k))
  (at level 61, right associativity).

(** An [if] without [else]. *)
Definition when (b : bool) (m : M unit) : M unit :=
  if b then m else ret tt.

(** [with engine.begin() as conn]: a new transaction, at a later time
    than the one before. *)
Definition begin : M unit :=
  fun w => (mkWorld (conversations w) (conversations_id_seq w)
                    (user_facts w) (user_facts_id_seq w)
                    (clock w + 1) (requests w), Ok tt).

(** INSERT INTO conversations (session_id, role, content) *)
Definition insert_conversation (session_id role content : str) : M unit :=
  fun w =>
    let row := mkConversation (conversations_id_seq w) session_id role content
                              (clock w) in
    (mkWorld (conversations w ++ [row]) (conversations_id_seq w + 1)
             (user_facts w) (user_facts_id_seq w) (clock w) (requests w),
     Ok tt).

Definition save_message (session_id role content : str) : M unit :=
  begin ;; insert_conversation session_id role content.

(** ORDER BY created_at DESC, as a stable insertion sort. *)
Fixpoint insert_desc (r : conversation) (l : list conversation) :=
  match l with
  | [] => [r]
  | x :: t =>
      if conv_created_at x <? conv_created_at r then r :: l
      else x :: insert_desc r t
  end.

Definition order_by_created_at_desc (l : list conversation) :=
  fold_right insert_desc [] l.

Definition of_session (session_id : str) (r : conversation) : bool :=
  str_eqb (conv_session_id r) session_id.

(** The values of a PostgreSQL [bigint], the type of LIMIT. *)
Definition BIGINT_MAX : Z := 2 ^ 63 - 1.

(** SELECT role, content FROM conversations WHERE session_id = :session_id
    ORDER BY created_at DESC LIMIT :limit.  The server refuses a LIMIT
    that is negative or not a [bigint]. *)
Definition select_last (session_id : str) (limit : Z)
  : M (list (str * str)) :=
  fun w =>
    if (limit <? 0) || (BIGINT_MAX <? limit) then (w, Raise DataError)
    else
      let rows := filter (of_session session_id) (conversations w) in
      (w, Ok (map (fun r => (conv_role r, conv_content r))
                  (firstn (Z.to_nat limit) (order_by_created_at_desc rows)))).

(** An entry [{"role": ..., "content": ...}] of the history. *)
Record entry := mkEntry { role : str; content : str }.

Definition get_last_messages (session_id : str) (limit : Z) : M (list entry) :=
  begin ;;
  rows <- select_last session_id limit ;;
  ret (map (fun row => mkEntry (fst row) (snd row)) (rev rows)).

(** *** Facts *)

Definition fact_matches (session_id key : str) (r : user_fact) : bool :=
  str_eqb (fact_session_id r) session_id && str_eqb (fact_key r) key.

(** SELECT id FROM user_facts WHERE session_id = :session_id AND
    fact_key = :key, then [fetchone()]. *)
Definition select_fact_id (session_id key : str) : M (option Z) :=
  fun w => (w, Ok (option_map fact_id
                     (List.find (fact_matches session_id key) (user_facts w)))).

(** UPDATE user_facts SET fact_value = :value, updated_at = NOW()
    WHERE id = :id.  The new version of an updated row comes after the
    rows that stay. *)
Definition update_fact (value : str) (id : Z) : M unit :=
  fun w =>
    let hit r := fact_id r =? id in
    let upd r :=
      mkFact (fact_id r) (fact_session_id r) (fact_key r) value (clock w) in
    (mkWorld (conversations w) (conversations_id_seq w)
             (filter (fun r => negb (hit r)) (user_facts w)
              ++ map upd (filter hit (user_facts w)))
             (user_facts_id_seq w)
             (clock w) (requests w), Ok tt).

(** INSERT INTO user_facts (session_id, fact_key, fact_value) *)
Definition insert_fact (session_id key value : str) : M unit :=
  fun w =>
    let row := mkFact (user_facts_id_seq w) session_id key value (clock w) in
    (mkWorld (conversations w) (conversations_id_seq w)
             (user_facts w ++ [row]) (user_facts_id_seq w + 1)
             (clock w) (requests w), Ok tt).

Definition upsert_user_fact (session_id key value : str) : M unit :=
  begin ;;
  existing <- select_fact_id session_id key ;;
  match existing with
  | Some id => update_fact value id
  | None => insert_fact session_id key value
  end.

(** A Python [dict] from strings to strings: keys in insertion order,
    assignment to a present key keeps its place. *)
Definition dict := list (str * str).

Fixpoint dict_set (k v : str) (d : dict) : dict :=
  match d with
  | [] => [(k, v)]
  | (k', v') :: t =>
      if str_eqb k' k then (k', v) :: t else (k', v') :: dict_set k v t
  end.

Fixpoint dict_get (k : str) (d : dict) : option str :=
  match d with
  | [] => None
  | (k', v') :: t => if str_eqb k' k then Some v' else dict_get k t
  end.

(** [{row[0]: row[1] for row in rows}] *)
Definition dict_of_rows (rows : list (str * str)) : dict :=
  fold_left (fun d row => dict_set (fst row) (snd row) d) rows [].

(** SELECT fact_key, fact_value FROM user_facts WHERE session_id = ... *)
Definition select_facts (session_id : str) : M (list (str * str)) :=
  fun w =>
    (w, Ok (map (fun r => (fact_key r, fact_value r))
                (filter (fun r => str_eqb (fact_session_id r) session_id)
                        (user_facts w)))).

Definition get_user_facts (session_id : str) : M dict :=
  begin ;;
  rows <- select_facts session_id ;;
  ret (dict_of_rows rows).

(** ** The fact extractor *)

Definition MY_NAME_IS : str := lit "my name is".
Definition I_AM_A : str := lit "i am a".
Definition I_LIVE_IN : str := lit "i live in".
Definition MOVED_TO : str := lit "moved to".

(** [user_input.split(phrase)[-1].strip().split()[0]] *)
Definition first_word_after (phrase user_input : str) : result str :=
  match split user_input phrase with
  | Raise e => Raise e
  | Ok parts =>
      match last_item parts with
      | Raise e => Raise e
      | Ok piece => first_item (split_ws (strip piece))
      end
  end.

(** [user_input.split(phrase)[-1].strip().split('.')[0]] *)
Definition sentence_after (phrase user_input : str) : result str :=
  match split user_input phrase with
  | Raise e => Raise e
  | Ok parts =>
      match last_item parts with
      | Raise e => Raise e
      | Ok piece =>
          match split (strip piece) (lit ".") with
          | Raise e => Raise e
          | Ok sentences => first_item sentences
          end
      end
  end.

Definition extract_and_store_facts (session_id user_input : str) : M unit :=
  let lower := lower user_input in
  when (contains MY_NAME_IS lower)
    (name <- lift (first_word_after MY_NAME_IS user_input) ;;
     upsert_user_fact session_id (lit "name") name) ;;
  when (contains I_AM_A lower)
    (profession <- lift (sentence_after I_AM_A user_input) ;;
     upsert_user_fact session_id (lit "profession") profession) ;;
  when (contains I_LIVE_IN lower)
    (location <- lift (sentence_after I_LIVE_IN user_input) ;;
     upsert_user_fact session_id (lit "location") location) ;;
  when (contains MOVED_TO lower)
    (new_location <- lift (sentence_after MOVED_TO user_input) ;;
     upsert_user_fact session_id (lit "location") new_location).

(** ** The chat function *)

Definition SESSION_ID : str := lit "default_session".

(** [chat.invoke(messages)]: the endpoint is any function from the
    request to a reply or a failure; the request is recorded. *)
Definition invoke (chat : list message -> result str) (messages : list message)
  : M str :=
  fun w =>
    (mkWorld (conversations w) (conversations_id_seq w)
             (user_facts w) (user_facts_id_seq w)
             (clock w) (requests w ++ [messages]),
     chat messages).

(** [f"{k.capitalize()} = {v}"] *)
Definition show_fact (kv : str * str) : str :=
  capitalize (fst kv) ++ lit " = " ++ snd kv.

Definition system_prompt_of (facts : dict) : str :=
  let facts_str := join (lit ", ") (map show_fact facts) in
  match facts with
  | _ :: _ => lit "User facts: " ++ facts_str
  | [] => lit "No known facts about the user."
  end.

(** The body of [for msg in history]. *)
Definition append_entry (messages : list message) (msg : entry) : list message :=
  if str_eqb (role msg) (lit "user")
  then messages ++ [HumanMessage (content msg)]
  else messages ++ [AIMessage (content msg)].

Definition chat_with_memory (chat : list message -> result str)
    (user_input : str) : M str :=
  extract_and_store_facts SESSION_ID user_input ;;
  save_message SESSION_ID (lit "user") user_input ;;
  facts <- get_user_facts SESSION_ID ;;
  let system_prompt := system_prompt_of facts in
  let messages := [SystemMessage system_prompt] in
  history <- get_last_messages SESSION_ID 5 ;;
  let messages := fold_left append_entry history messages in
  let messages := messages ++ [HumanMessage user_input] in
  response <- invoke chat messages ;;
  save_message SESSION_ID (lit "assistant") response ;;
  ret response.

(** The facts a session has in a world, as [get_user_facts] returns them. *)
Definition facts_of (session_id : str) (w : world) : dict :=
  match snd (get_user_facts session_id w) with
  | Ok d => d
  | Raise _ => []
  end.


(** ** Notions used by the properties *)

(** A phrase is unbordered when none of its proper prefixes is also a
    suffix; two occurrences of such a phrase never overlap. *)
Definition unbordered (p : str) : Prop :=
  forall x y z, p = x ++ y -> p = z ++ x -> x = [] \/ x = p.

Definition unborderedb (p : str) : bool :=
  forallb (fun k => negb (str_eqb (firstn k p) (skipn (length p - k) p)))
          (seq 1 (length p - 1)).

(** The text up to, not including, the first [c]. *)
Fixpoint upto (c : ascii) (s : str) : str :=
  match s with
  | [] => []
  | x :: t => if ascii_dec x c then [] else x :: upto c t
  end.

(** Some character of [s] is not white space. *)
Definition has_word (s : str) : bool := existsb (fun c => negb (isspace c)) s.

(** One [if] of the extractor: when [phrase] is in the lower-cased
    input, derive a value and store it under [key]. *)
Definition trigger (phrase : str) (derive : str -> str -> result str)
    (key session_id user_input : str) : M unit :=
  when (contains phrase (lower user_input))
    (value <- lift (derive phrase user_input) ;;
     upsert_user_fact session_id key value).

(** At most one row per (session, key). *)
Definition fact_pk (r : user_fact) : str * str :=
  (fact_session_id r, fact_key r).

Definition unique_facts (w : world) : Prop :=
  NoDup (map fact_pk (user_facts w)).

(** Every row of the session under [key] carries [value]. *)
Definition stored (session_id key value : str) (rows : list user_fact) : Prop :=
  (exists r, In r rows /\ fact_pk r = (session_id, key)) /\
  (forall r, In r rows -> fact_pk r = (session_id, key) -> fact_value r = value).

Definition older (a b : conversation) : Prop :=
  conv_created_at a < conv_created_at b.

(** The log is in the order of its time stamps. *)
Definition chronological (w : world) : Prop :=
  StronglySorted older (conversations w).

(** It is, and no time stamp is in the future. *)
Definition log_ok (w : world) : Prop :=
  chronological w /\
  Forall (fun r => conv_created_at r <= clock w) (conversations w).

Definition entry_of (r : conversation) : entry :=
  mkEntry (conv_role r) (conv_content r).

(** The rows of a session, oldest first when the log is chronological. *)
Definition session_rows (session_id : str) (w : world) : list conversation :=
  filter (of_session session_id) (conversations w).

Definition log_of (session_id : str) (w : world) : list entry :=
  map entry_of (session_rows session_id w).

(** The message type of a role. *)
Definition message_of (e : entry) : message :=
  if str_eqb (role e) (lit "user")
  then HumanMessage (content e)
  else AIMessage (content e).

(** The last [n] items of a list. *)
Definition lastn {A} (n : nat) (l : list A) : list A :=
  skipn (length l - n) l.

(** What the worlds before and after a run of the extractor share. *)
Definition facts_step (w w' : world) : Prop :=
  conversations w' = conversations w /\
  conversations_id_seq w' = conversations_id_seq w /\
  requests w' = requests w /\
  clock w <= clock w' /\
  (unique_facts w -> unique_facts w').

(** The history and the request of a turn, in the world in which the
    user turn has been saved. *)
Definition history_of (w : world) : list entry :=
  match snd (get_last_messages SESSION_ID 5 w) with
  | Ok history => history
  | Raise _ => []
  end.

Definition assembled_messages (user_input : str) (w : world) : list message :=
  [SystemMessage (system_prompt_of (facts_of SESSION_ID w))]
  ++ map message_of (history_of w)
  ++ [HumanMessage user_input].

(** The world once the request has been sent: two reads later. *)
Definition after_request (messages : list message) (w : world) : world :=
  mkWorld (conversations w) (conversations_id_seq w)
          (user_facts w) (user_facts_id_seq w)
          (clock w + 1 + 1) (requests w ++ [messages]).

(** The worlds the program can be in: the fresh one, and those after a
    turn with whatever endpoint and utterance. *)
Inductive reachable : world -> Prop :=
| reachable_initial : reachable initial_world
| reachable_turn (chat : list message -> result str) (user_input : str)
    (w : world) :
    reachable w -> reachable (fst (chat_with_memory chat user_input w)).

(** The value of a sentence trigger from the text after the phrase: as
    the specification words it (cut at the first period, then trimmed)
    and as the code computes it (trimmed, then cut). *)
Definition spec_sentence (after : str) : str := strip (upto "."%char after).
Definition code_sentence (after : str) : str := upto "."%char (strip after).

(** Utterances and worlds used as examples. *)
Definition ALICE : str := lit "Hi, my name is Alice and I live in Boston.".
Definition DENVER : str := lit "I moved to Denver.".
Definition BOTH : str := lit "i live in Boston. Then I moved to Denver.".
Definition DOCTOR : str := lit "i am a doctor .".
Definition SHOUT : str := lit "I AM A PILOT. really".
Definition HELLO : str := lit "hello there".

Definition boston_world : world :=
  fst (upsert_user_fact SESSION_ID (lit "location") (lit "Boston")
         initial_world).

Definition three_messages : world :=
  fst (save_message SESSION_ID (lit "user") (lit "three")
    (fst (save_message SESSION_ID (lit "assistant") (lit "two")
      (fst (save_message SESSION_ID (lit "user") (lit "one")
         initial_world))))).

(** [three_messages] after the extraction of [DENVER]. *)
Definition denver_world : world :=
  fst (extract_and_store_facts SESSION_ID DENVER three_messages).

Definition failing_chat (messages : list message) : result str :=
  Raise EndpointError.

(** Case analysis on membership in a list of phrases written out. *)
Ltac each_phrase H :=
  simpl in H;
  repeat (let E := fresh "E" in destruct H as [E | H]; [subst |]);
  [ .. | destruct H ].

(** ** Further notions: the primary key, words, the schema, the console *)

(** The primary key of [user_facts]: the ids are distinct and below the
    counter of the SERIAL column. *)
Definition facts_pk_ok (w : world) : Prop :=
  NoDup (map fact_id (user_facts w)) /\
  Forall (fun r => fact_id r < user_facts_id_seq w) (user_facts w).

Definition facts_wf (w : world) : Prop :=
  unique_facts w /\ facts_pk_ok w.

(** The rows an UPDATE ... WHERE id = :id finds, the new version of a
    row, and the table the UPDATE leaves. *)
Definition with_id (id : Z) (r : user_fact) : bool := fact_id r =? id.

Definition revalued (value : str) (now : Z) (r : user_fact) : user_fact :=
  mkFact (fact_id r) (fact_session_id r) (fact_key r) value now.

Definition updated (value : str) (now id : Z) (rows : list user_fact)
  : list user_fact :=
  filter (fun r => negb (with_id id r)) rows
  ++ map (revalued value now) (filter (with_id id) rows).

(** The rows of a session, and a row as [get_user_facts] reads it. *)
Definition in_session (session_id : str) (r : user_fact) : bool :=
  str_eqb (fact_session_id r) session_id.

Definition fact_item (r : user_fact) : str * str := (fact_key r, fact_value r).

(** The keys of a dictionary; a key taken out; a key put last with a
    value, as [d.pop(k, None); d[k] = v] does; a run of such writes. *)
Definition keys (d : dict) : list str := map fst d.

Definition dict_del (k : str) (d : dict) : dict :=
  filter (fun kv => negb (str_eqb (fst kv) k)) d.

Definition dict_move (k v : str) (d : dict) : dict :=
  dict_del k d ++ [(k, v)].

(** The dictionary without the keys of a list. *)
Definition dict_without (ks : list str) (d : dict) : dict :=
  filter (fun kv => negb (existsb (str_eqb (fst kv)) ks)) d.

Definition assign (writes : list (str * str)) (d : dict) : dict :=
  fold_left (fun d kv => dict_move (fst kv) (snd kv) d) writes d.

Fixpoint takewhile (p : ascii -> bool) (s : str) : str :=
  match s with
  | [] => []
  | c :: t => if p c then c :: takewhile p t else []
  end.

Definition nonspace (c : ascii) : bool := negb (isspace c).

(** The first run of characters that are not white space. *)
Definition first_word (s : str) : str := takewhile nonspace (lstrip s).

(** What one trigger writes, and what the extractor writes, in order,
    when it completes. *)
Definition write_of (phrase : str) (derive : str -> str -> result str)
    (key user_input : str) : list (str * str) :=
  if contains phrase (lower user_input)
  then match derive phrase user_input with
       | Ok value => [(key, value)]
       | Raise _ => []
       end
  else [].

Definition writes_of (user_input : str) : list (str * str) :=
  write_of MY_NAME_IS first_word_after (lit "name") user_input
  ++ write_of I_AM_A sentence_after (lit "profession") user_input
  ++ write_of I_LIVE_IN sentence_after (lit "location") user_input
  ++ write_of MOVED_TO sentence_after (lit "location") user_input.

(** *** The command line

    What the program writes: a printed line, or the prompt of [input]. *)
Inductive output :=
| Line (text : str)
| Prompt (text : str).

(** How the program ends: [break], an exception of a turn that nothing
    catches, or the [EOFError] of [input] when no line is left. *)
Inductive ending :=
| Exit
| Uncaught (e : exn)
| EOFError.

(** The state of a run: the lines not read yet, what was written, the
    world. *)
Record run := mkRun {
  unread : list str;
  written : list output;
  run_world : world }.

(** [while True]: the lines to come drive the loop. *)
Fixpoint loop (chat : list message -> result str) (lines : list str)
    (out : list output) (w : world) : run * ending :=
  match lines with
  | [] => (mkRun [] (out ++ [Prompt (lit "You: ")]) w, EOFError)
  | user_input :: rest =>
      let out := out ++ [Prompt (lit "You: ")] in
      if str_eqb (strip (lower user_input)) (lit "exit")
      then (mkRun rest out w, Exit)
      else match chat_with_memory chat user_input w with
           | (w', Ok reply) =>
               loop chat rest (out ++ [Line (lit "Bot: " ++ reply)]) w'
           | (w', Raise e) => (mkRun rest out w', Uncaught e)
           end
  end.

(** The body of [if __name__ == "__main__"]; the text of the banner is a
    parameter. *)
Definition main (banner : str) (chat : list message -> result str)
    (lines : list str) (w : world) : run * ending :=
  loop chat lines [Line banner] w.

(** The exchanges of a session as the log has them. *)
Definition exchange (turn : str * str) : list entry :=
  [mkEntry (lit "user") (fst turn); mkEntry (lit "assistant") (snd turn)].


Definition is_exit (line : str) : bool :=
  str_eqb (strip (lower line)) (lit "exit").

(** The value the last assignment to [k] leaves, starting from [acc]. *)
Definition overwrite (k : str) (acc : option str) (kv : str * str)
  : option str :=
  if str_eqb (fst kv) k then Some (snd kv) else acc.

Definition NAME_AT_END : str := lit "I live in Rome. my name is ".
Definition BOB : str := lit "call me Al, my name is Robert, my name is   Bob Smith.".

(** The name trigger does not raise on this utterance. *)
Definition name_ok (user_input : str) : Prop :=
  contains MY_NAME_IS (lower user_input) = true ->
  exists name, first_word_after MY_NAME_IS user_input = Ok name.

Definition EXTRACTED_KEYS : list str :=
  [lit "name"; lit "profession"; lit "location"].

(** A session at the console: two utterances, "exit" in capitals, and a
    line that is never read. *)
Definition SESSION_LINES : list str :=
  [lit "I moved to Denver."; lit "hello there"; lit "  EXIT "; lit "ignored"].


Definition echo_chat (messages : list message) : result str :=
  match last messages (SystemMessage []) with
  | HumanMessage text => Ok (lit "You said: " ++ text)
  | _ => Raise EndpointError
  end.


(** A session with a location and then a name. *)
Definition two_facts_world : world :=
  fst (upsert_user_fact SESSION_ID (lit "name") (lit "Bo") boston_world).

(** Text the database can store: no NUL character. *)
Definition storable (s : str) : Prop := ~ In zero s.

(** [after] is the text after the last occurrence of [phrase] in the
    utterance, or the whole utterance when the phrase does not occur. *)
Definition text_after (phrase user_input after : str) : Prop :=
  (exists pre, user_input = pre ++ phrase ++ after /\
               contains phrase (tl (phrase ++ after)) = false)
  \/ (contains phrase user_input = false /\ after = user_input).

(** The triggers with a sentence as value, and all four, with the key
    each one writes. *)
Definition SENTENCE_TRIGGERS : list (str * str) :=
  [(I_AM_A, lit "profession"); (I_LIVE_IN, lit "location");
   (MOVED_TO, lit "location")].

Definition TRIGGERS : list (str * str) :=
  (MY_NAME_IS, lit "name") :: SENTENCE_TRIGGERS.


Definition OSLO_ROME : str := lit "moved to Oslo. i live in Rome.".
Definition PILOT : str := lit "my name is Al and i am a pilot . i live in Rome".

(** ** The string functions on examples *)

Example split_ex :
  split (lit "a, b,, c") (lit ", ") = Ok [lit "a"; lit "b,"; lit "c"].
Proof. reflexivity. Qed.

Example split_ws_ex :
  split_ws (lit "  Alice and  I ") = [lit "Alice"; lit "and"; lit "I"].
Proof. reflexivity. Qed.

Example strip_ex : strip (lit "  a b . ") = lit "a b .".
Proof. reflexivity. Qed.

Example capitalize_ex : capitalize (lit "lOCATION") = lit "Location".
Proof. reflexivity. Qed.


(** ** Facts about the string functions *)

Section StringFacts.

Lemma str_eqb_eq (a b : str) : str_eqb a b = true <-> a = b.
Proof.
  unfold str_eqb. destruct (list_eq_dec ascii_dec a b); split; congruence.
Qed.

Lemma str_eqb_refl (a : str) : str_eqb a a = true.
Proof. apply str_eqb_eq. reflexivity. Qed.

Lemma str_eqb_neq (a b : str) : str_eqb a b = false <-> a <> b.
Proof.
  unfold str_eqb. destruct (list_eq_dec ascii_dec a b); split; congruence.
Qed.

Lemma startswith_iff (p s : str) :
  startswith p s = true <-> exists t, s = p ++ t.
Proof.
  revert s. induction p as [|a p IH]; intros s; simpl.
  - split; [exists s; reflexivity | reflexivity].
  - destruct s as [|b s].
    + split; [discriminate | intros [t Ht]; discriminate].
    + destruct (ascii_dec a b) as [->|Hab].
      * rewrite IH. split; intros [t Ht]; exists t; congruence.
      * split; [discriminate | intros [t Ht]; congruence].
Qed.

(** [find] returns the leftmost occurrence. *)
Lemma find_Some (p s : str) (i : nat) :
  find p s = Some i ->
  exists a b, s = a ++ p ++ b /\ length a = i /\
              forall a' b', s = a' ++ p ++ b' -> (i <= length a')%nat.
Proof.
  revert i. induction s as [|c s IH]; intros i; simpl.
  - destruct (startswith p []) eqn:E; [|discriminate].
    intros [= <-]. apply startswith_iff in E as [t Ht].
    exists [], t. repeat split; auto. intros; lia.
  - destruct (startswith p (c :: s)) eqn:E.
    + intros [= <-]. apply startswith_iff in E as [t Ht].
      exists [], t. repeat split; auto. intros; lia.
    + destruct (find p s) as [j|] eqn:F; [|discriminate].
      intros [= <-]. destruct (IH j eq_refl) as (a & b & -> & Hlen & Hmin).
      exists (c :: a), b. repeat split; simpl; auto.
      intros [|c' a'] b' H'.
      * simpl in H'. assert (startswith p (c :: a ++ p ++ b) = true)
          by (apply startswith_iff; eauto). congruence.
      * simpl in H'. injection H' as _ H'. apply Hmin in H'. simpl. lia.
Qed.

Lemma find_None (p s : str) :
  find p s = None -> forall a b, s <> a ++ p ++ b.
Proof.
  induction s as [|c s IH]; simpl.
  - destruct (startswith p []) eqn:E; [discriminate|].
    intros _ a b H. destruct a; simpl in H.
    + assert (startswith p [] = true) by (apply startswith_iff; eauto).
      congruence.
    + discriminate.
  - destruct (startswith p (c :: s)) eqn:E; [discriminate|].
    destruct (find p s) eqn:F; [discriminate|].
    intros _ [|c' a] b H; simpl in H.
    + assert (startswith p (c :: s) = true) by (apply startswith_iff; eauto).
      congruence.
    + injection H as _ H. exact (IH eq_refl _ _ H).
Qed.

Lemma contains_iff (p s : str) :
  contains p s = true <-> exists a b, s = a ++ p ++ b.
Proof.
  unfold contains. destruct (find p s) as [i|] eqn:F.
  - destruct (find_Some _ _ _ F) as (a & b & H & _). split; eauto.
  - split; [discriminate|]. intros (a & b & H).
    exfalso. exact (find_None _ _ F _ _ H).
Qed.

Lemma contains_false (p s : str) :
  contains p s = false <-> forall a b, s <> a ++ p ++ b.
Proof.
  split.
  - intros H a b E. assert (contains p s = true) by (apply contains_iff; eauto).
    congruence.
  - intros H. destruct (contains p s) eqn:E; [|reflexivity].
    apply contains_iff in E as (a & b & E). exfalso. exact (H _ _ E).
Qed.

Lemma contains_find_None (p s : str) :
  contains p s = false -> find p s = None.
Proof. unfold contains. destruct (find p s); [discriminate | reflexivity]. Qed.

Lemma contains_suffix (p x s : str) :
  contains p (x ++ s) = false -> contains p s = false.
Proof.
  rewrite !contains_false. intros H a b ->.
  apply (H (x ++ a) b). rewrite <- app_assoc. reflexivity.
Qed.

Lemma lower_app (a b : str) : lower (a ++ b) = lower a ++ lower b.
Proof. apply map_app. Qed.

(** Matching on the lower-cased text accepts every verbatim occurrence
    of a lower-case phrase. *)
Lemma contains_lower (p s : str) :
  lower p = p -> contains p s = true -> contains p (lower s) = true.
Proof.
  intros Hp. rewrite !contains_iff. intros (a & b & ->).
  exists (lower a), (lower b). rewrite !lower_app, Hp. reflexivity.
Qed.

End StringFacts.

(** *** [split] *)

Section SplitFacts.

Lemma split_loop_step (c : ascii) (sep s : str) :
  split_loop (c :: sep) s =
  match find (c :: sep) s with
  | None => [s]
  | Some i =>
      firstn i s :: split_loop (c :: sep) (skipn (i + length (c :: sep)) s)
  end.
Proof.
  rewrite split_loop_equation_2.
  destruct (inspect (find (c :: sep) s)) as [[i|] H].
  - rewrite split_loop_clause_2_equation_1, H. reflexivity.
  - simpl. rewrite H. reflexivity.
Qed.

Lemma split_loop_nonempty (sep s : str) : split_loop sep s <> [].
Proof.
  destruct sep as [|c sep].
  - rewrite split_loop_equation_1. discriminate.
  - rewrite split_loop_step. destruct (find (c :: sep) s); discriminate.
Qed.

Lemma split_loop_absent (sep s : str) :
  contains sep s = false -> split_loop sep s = [s].
Proof.
  destruct sep as [|c sep]; intros H.
  - apply split_loop_equation_1.
  - rewrite split_loop_step, (contains_find_None _ _ H). reflexivity.
Qed.

Lemma firstn_occurrence (a p b : str) :
  firstn (length a) (a ++ p ++ b) = a.
Proof.
  rewrite firstn_app, Nat.sub_diag, firstn_all. simpl. apply app_nil_r.
Qed.

Lemma skipn_occurrence (a p b : str) :
  skipn (length a + length p) (a ++ p ++ b) = b.
Proof.
  rewrite app_assoc, <- length_app, skipn_app, Nat.sub_diag, skipn_all.
  reflexivity.
Qed.

(** At the leftmost occurrence the split takes what is before it and goes
    on with what is after it. *)
Lemma split_loop_cut (sep s : str) (i : nat) :
  sep <> [] ->
  find sep s = Some i ->
  exists a b, s = a ++ sep ++ b /\
              (forall a' b', s = a' ++ sep ++ b' ->
                             (length a <= length a')%nat) /\
              split_loop sep s = a :: split_loop sep b.
Proof.
  intros N F. destruct sep as [|c sep]; [congruence|].
  rewrite split_loop_step, F.
  destruct (find_Some _ _ _ F) as (a & b & -> & Hlen & Hmin).
  exists a, b. subst i. repeat split; auto.
  rewrite firstn_occurrence, skipn_occurrence. reflexivity.
Qed.

Lemma last_item_cons {A} (x : A) (l : list A) :
  l <> [] -> last_item (x :: l) = last_item l.
Proof. destruct l; [congruence | reflexivity]. Qed.

Lemma unborderedb_sound (p : str) : unborderedb p = true -> unbordered p.
Proof.
  unfold unborderedb. rewrite forallb_forall. intros H x y z Hxy Hzx.
  destruct x as [|c x]; [left; reflexivity | right].
  assert (Hlen : (length (c :: x) <= length p)%nat)
    by (rewrite Hxy, length_app; lia).
  destruct (Nat.eq_dec (length (c :: x)) (length p)) as [E|E].
  - rewrite Hxy in E. rewrite length_app in E.
    destruct y; [rewrite app_nil_r in Hxy; congruence | simpl in E; lia].
  - exfalso. specialize (H (length (c :: x))).
    assert (Hin : In (length (c :: x)) (seq 1 (length p - 1)))
      by (apply in_seq; simpl in *; lia).
    apply H in Hin. apply negb_true_iff, str_eqb_neq in Hin. apply Hin.
    assert (F1 : forall u v : str, firstn (length u) (u ++ v) = u).
    { intros u v. rewrite firstn_app, Nat.sub_diag, firstn_all.
      simpl. apply app_nil_r. }
    assert (F2 : forall u v : str,
               skipn (length (u ++ v) - length v) (u ++ v) = v).
    { intros u v. rewrite length_app.
      replace (length u + length v - length v)%nat with (length u) by lia.
      rewrite skipn_app, Nat.sub_diag, skipn_all. reflexivity. }
    transitivity (c :: x).
    + rewrite Hxy. apply F1.
    + rewrite Hzx. symmetry. apply F2.
Qed.

Section Unbordered.

Variable p : str.
Hypothesis p_unbordered : unbordered p.
Hypothesis p_nonempty : p <> [].

(** Two occurrences of an unbordered phrase: the later one starts after
    the end of the earlier one. *)
Lemma unbordered_apart (d b0 b : str) :
  d <> [] -> p ++ b0 = d ++ p ++ b ->
  exists d', d = p ++ d' /\ b0 = d' ++ p ++ b.
Proof.
  intros Hd E.
  destruct (app_eq_app _ _ _ _ E) as [l [[H1 H2] | [H1 H2]]].
  - (* d is a prefix of p: what is left of p is a border *)
    symmetry in H2.
    destruct (app_eq_app _ _ _ _ H2) as [m [[H3 H4] | [H3 H4]]].
    + exfalso. assert (L : length p = length (d ++ l)) by congruence.
      rewrite H3, !length_app in L.
      destruct d; [congruence | simpl in L; lia].
    + destruct (p_unbordered l m d H3 H1) as [El | El].
      * exists []. subst l. rewrite app_nil_r in *. simpl in *.
        split; congruence.
      * exfalso. assert (L : length p = length (d ++ l)) by congruence.
        rewrite El, length_app in L.
        destruct d; [congruence | simpl in L; lia].
  - exists l. split; assumption.
Qed.

(** The last piece of a split on an unbordered phrase is the text after
    the last occurrence of the phrase. *)
Lemma last_item_split_loop (s a b : str) :
  s = a ++ p ++ b -> contains p (tl (p ++ b)) = false ->
  last_item (split_loop p s) = Ok b.
Proof.
  revert a b.
  induction s as [s IH] using (induction_ltof1 _ (@length ascii)).
  unfold ltof in IH. intros a b Hs Hlast.
  assert (Hb : contains p b = false).
  { apply (contains_suffix _ (tl p)).
    replace (tl p ++ b) with (tl (p ++ b)); [exact Hlast|].
    destruct p; [congruence | reflexivity]. }
  destruct (find p s) as [i|] eqn:F.
  2:{ exfalso. exact (find_None _ _ F _ _ Hs). }
  destruct (split_loop_cut _ _ _ p_nonempty F) as (a0 & b0 & Hs0 & Hmin & Hsplit).
  rewrite Hsplit, last_item_cons by apply split_loop_nonempty.
  specialize (Hmin _ _ Hs).
  rewrite Hs0 in Hs.
  apply app_eq_app in Hs as [l [[H1 H2] | [H1 H2]]].
  - (* a0 = a ++ l, and a0 is not longer than a *)
    assert (l = []) by
      (destruct l; [reflexivity |
         apply (f_equal (@length _)) in H1; rewrite length_app in H1;
         simpl in H1; lia]).
    subst l. assert (b0 = b) by (apply (app_inv_head p); symmetry; exact H2).
    subst b0. rewrite (split_loop_absent _ _ Hb). reflexivity.
  - destruct l as [|x l].
    + assert (b0 = b) by (apply (app_inv_head p); exact H2).
      subst b0. rewrite (split_loop_absent _ _ Hb). reflexivity.
    + destruct (unbordered_apart (x :: l) b0 b) as (d' & Hd & Hb0);
        [discriminate | exact H2 |].
      apply (IH b0) with (a := d'); auto.
      rewrite Hs0, !length_app.
      destruct p; [congruence | simpl; lia].
Qed.

End Unbordered.

Lemma find_char (c x : ascii) (t : str) :
  find [c] (x :: t) =
  if ascii_dec c x then Some 0%nat else option_map S (find [c] t).
Proof. simpl. destruct (ascii_dec c x); reflexivity. Qed.

Lemma first_item_split_char (c : ascii) (s : str) :
  first_item (split_loop [c] s) = Ok (upto c s).
Proof.
  rewrite split_loop_step.
  induction s as [|x t IH].
  - reflexivity.
  - rewrite find_char. simpl upto.
    destruct (ascii_dec c x) as [->|N].
    + destruct (ascii_dec x x); [reflexivity | congruence].
    + destruct (ascii_dec x c); [congruence|].
      destruct (find [c] t) as [i|]; simpl in *.
      * injection IH as IH. rewrite IH. reflexivity.
      * injection IH as IH. rewrite <- IH. reflexivity.
Qed.

End SplitFacts.

(** A check that decides [storable]. *)
Lemma storable_by (s : str) :
  forallb (fun c => negb (Ascii.eqb c zero)) s = true -> storable s.
Proof.
  rewrite forallb_forall. intros H Hin. specialize (H zero Hin).
  rewrite Ascii.eqb_refl in H. discriminate H.
Qed.

(** ** The fact store *)

Section FactStore.

Lemma dict_get_set_same (k v : str) (d : dict) :
  dict_get k (dict_set k v d) = Some v.
Proof.
  induction d as [|[k' v'] d IH]; simpl.
  - rewrite str_eqb_refl. reflexivity.
  - destruct (str_eqb k' k) eqn:E; simpl; rewrite E; auto.
Qed.

Lemma dict_get_set_other (k k' v : str) (d : dict) :
  k <> k' -> dict_get k' (dict_set k v d) = dict_get k' d.
Proof.
  intros N. induction d as [|[k0 v0] d IH]; simpl.
  - apply str_eqb_neq in N. rewrite N. reflexivity.
  - destruct (str_eqb k0 k) eqn:E; simpl.
    + apply str_eqb_eq in E. subst k0.
      apply str_eqb_neq in N. rewrite N. reflexivity.
    + destruct (str_eqb k0 k'); auto.
Qed.

Lemma dict_of_rows_snoc (l : list (str * str)) (p : str * str) :
  dict_of_rows (l ++ [p]) = dict_set (fst p) (snd p) (dict_of_rows l).
Proof. unfold dict_of_rows. rewrite fold_left_app. reflexivity. Qed.

(** A key that the rows all give the same value has that value in the
    dictionary. *)
Lemma dict_get_of_rows (k v : str) (l : list (str * str)) :
  (exists p, In p l /\ fst p = k) ->
  (forall p, In p l -> fst p = k -> snd p = v) ->
  dict_get k (dict_of_rows l) = Some v.
Proof.
  induction l as [|p l IH] using rev_ind; intros [q [Hin Hq]] Hall.
  - destruct Hin.
  - rewrite dict_of_rows_snoc.
    destruct (list_eq_dec ascii_dec (fst p) k) as [E|N].
    + rewrite E, (Hall p) by (auto using in_or_app, in_eq).
      apply dict_get_set_same.
    + rewrite dict_get_set_other by exact N.
      apply IH.
      * apply in_app_or in Hin as [Hin | [<- | []]]; [eauto | congruence].
      * intros r Hr. apply Hall. apply in_or_app. auto.
Qed.

Lemma NoDup_map_eq {A B} (f : A -> B) (l : list A) (x y : A) :
  NoDup (map f l) -> In x l -> In y l -> f x = f y -> x = y.
Proof.
  induction l as [|a l IH]; simpl; intros ND Hx Hy E; [contradiction|].
  inversion ND as [|? ? Hnin ND']; subst.
  destruct Hx as [<-|Hx], Hy as [<-|Hy]; auto.
  - exfalso. apply Hnin. rewrite E. apply in_map. exact Hy.
  - exfalso. apply Hnin. rewrite <- E. apply in_map. exact Hx.
Qed.

Lemma NoDup_snoc {A} (l : list A) (x : A) :
  NoDup l -> ~ In x l -> NoDup (l ++ [x]).
Proof.
  induction l as [|a l IH]; simpl; intros ND Hx.
  - constructor; [intros [] | constructor].
  - inversion ND; subst. constructor.
    + rewrite in_app_iff. simpl. intuition congruence.
    + apply IH; tauto.
Qed.

Lemma facts_of_eq (session_id : str) (w : world) :
  facts_of session_id w =
  dict_of_rows
    (map (fun r => (fact_key r, fact_value r))
         (filter (fun r => str_eqb (fact_session_id r) session_id)
                 (user_facts w))).
Proof. reflexivity. Qed.

Lemma fact_matches_iff (session_id key : str) (r : user_fact) :
  fact_matches session_id key r = true <-> fact_pk r = (session_id, key).
Proof.
  unfold fact_matches, fact_pk. rewrite andb_true_iff, !str_eqb_eq.
  split; [intros [-> ->]; reflexivity | intros [= -> ->]; auto].
Qed.

Lemma stored_get (session_id key value : str) (w : world) :
  stored session_id key value (user_facts w) ->
  dict_get key (facts_of session_id w) = Some value.
Proof.
  intros [[r [Hin Hpk]] Hall]. rewrite facts_of_eq.
  apply dict_get_of_rows.
  - exists (fact_key r, fact_value r). split.
    + apply in_map_iff. exists r. split; [reflexivity|].
      apply filter_In. split; [exact Hin|].
      injection Hpk as -> _. apply str_eqb_refl.
    + injection Hpk as _ ->. reflexivity.
  - intros p Hp Hk. apply in_map_iff in Hp as [r' [<- Hr']].
    apply filter_In in Hr' as [Hr' Hs]. apply str_eqb_eq in Hs.
    simpl in *. apply Hall; [exact Hr'|]. unfold fact_pk. congruence.
Qed.

Lemma filter_partition {A} (p : A -> bool) (l : list A) :
  Permutation (filter (fun x => negb (p x)) l ++ filter p l) l.
Proof.
  induction l as [|x l IH]; simpl; [constructor|].
  destruct (p x); simpl.
  - apply Permutation_sym, Permutation_cons_app, Permutation_sym. exact IH.
  - constructor. exact IH.
Qed.

(** An UPDATE keeps the keys and the ids of the table, up to the order
    of the rows. *)
Lemma updated_perm {B} (f : user_fact -> B) (value : str) (now id : Z)
    (rows : list user_fact) :
  (forall r, f (revalued value now r) = f r) ->
  Permutation (map f (updated value now id rows)) (map f rows).
Proof.
  intros Hf. unfold updated. rewrite map_app, map_map.
  rewrite (map_ext _ f Hf), <- map_app.
  apply Permutation_map, filter_partition.
Qed.

Lemma upsert_user_fact_update (session_id key value : str) (w : world)
    (r : user_fact) :
  List.find (fact_matches session_id key) (user_facts w) = Some r ->
  upsert_user_fact session_id key value w =
    (mkWorld (conversations w) (conversations_id_seq w)
             (updated value (clock w + 1) (fact_id r) (user_facts w))
             (user_facts_id_seq w) (clock w + 1) (requests w), Ok tt).
Proof.
  intros F. unfold upsert_user_fact, bind, begin, select_fact_id. simpl.
  rewrite F. reflexivity.
Qed.

Lemma upsert_user_fact_insert (session_id key value : str) (w : world) :
  List.find (fact_matches session_id key) (user_facts w) = None ->
  upsert_user_fact session_id key value w =
    (mkWorld (conversations w) (conversations_id_seq w)
             (user_facts w ++
                [mkFact (user_facts_id_seq w) session_id key value
                        (clock w + 1)])
             (user_facts_id_seq w + 1) (clock w + 1) (requests w), Ok tt).
Proof.
  intros F. unfold upsert_user_fact, bind, begin, select_fact_id. simpl.
  rewrite F. reflexivity.
Qed.

(** The world after an upsert. *)
Lemma upsert_user_fact_run (session_id key value : str) (w : world) :
  exists rows seq,
    upsert_user_fact session_id key value w =
      (mkWorld (conversations w) (conversations_id_seq w) rows seq
               (clock w + 1) (requests w), Ok tt) /\
    (unique_facts w ->
     NoDup (map fact_pk rows) /\ stored session_id key value rows).
Proof.
  destruct (List.find (fact_matches session_id key) (user_facts w))
    as [r|] eqn:F.
  - (* UPDATE *)
    rewrite (upsert_user_fact_update session_id key value w r F).
    apply find_some in F as [Hin Hm]. apply fact_matches_iff in Hm.
    eexists _, _. split; [reflexivity|]. intros U. split.
    + eapply Permutation_NoDup; [|exact U].
      apply Permutation_sym, updated_perm. reflexivity.
    + unfold updated. split.
      * exists (revalued value (clock w + 1) r). split; [|exact Hm].
        apply in_or_app. right. apply in_map. apply filter_In.
        split; [exact Hin | apply Z.eqb_refl].
      * intros r' Hr' Hpk'. apply in_app_or in Hr' as [Hr' | Hr'].
        -- exfalso. apply filter_In in Hr' as [Hr' Hn].
           rewrite (NoDup_map_eq fact_pk _ r' r U Hr' Hin) in Hn
             by congruence.
           unfold with_id in Hn. rewrite Z.eqb_refl in Hn. discriminate.
        -- apply in_map_iff in Hr' as [r0 [<- _]]. reflexivity.
  - (* INSERT *)
    rewrite (upsert_user_fact_insert session_id key value w F).
    set (new := mkFact (user_facts_id_seq w) session_id key value (clock w + 1)).
    eexists _, _. split; [reflexivity|]. intros U.
    assert (Hnone : forall r, In r (user_facts w) ->
                              fact_pk r <> (session_id, key)).
    { intros r Hr Hpk. apply fact_matches_iff in Hpk.
      pose proof (find_none _ _ F r Hr) as Hf. simpl in Hf. congruence. }
    split.
    + rewrite map_app. apply NoDup_snoc; [exact U|].
      intros Hin. apply in_map_iff in Hin as [r [Hpk Hr]].
      exact (Hnone r Hr Hpk).
    + split.
      * exists new. split; [apply in_or_app; right; apply in_eq | reflexivity].
      * intros r Hr Hpk. apply in_app_or in Hr as [Hr | [<- | []]].
        -- exfalso. exact (Hnone r Hr Hpk).
        -- reflexivity.
Qed.

End FactStore.

(** ** The fact extractor, one trigger at a time *)

Section Extractor.

Lemma facts_step_refl (w : world) : facts_step w w.
Proof. unfold facts_step. repeat split; auto. lia. Qed.

Lemma facts_step_trans (w1 w2 w3 : world) :
  facts_step w1 w2 -> facts_step w2 w3 -> facts_step w1 w3.
Proof.
  unfold facts_step. intros (A1 & B1 & C1 & D1 & E1) (A2 & B2 & C2 & D2 & E2).
  repeat split; try congruence; [lia | auto].
Qed.

Lemma upsert_user_fact_step (session_id key value : str) (w : world) :
  exists w',
    upsert_user_fact session_id key value w = (w', Ok tt) /\
    facts_step w w' /\
    (unique_facts w -> dict_get key (facts_of session_id w') = Some value).
Proof.
  destruct (upsert_user_fact_run session_id key value w)
    as (rows & seq & -> & H).
  eexists. split; [reflexivity|]. split.
  - unfold facts_step, unique_facts. simpl. repeat split; auto; [lia|].
    intros U. apply H. exact U.
  - intros U. apply stored_get. simpl. apply H. exact U.
Qed.

Lemma extract_and_store_facts_triggers (session_id user_input : str) :
  extract_and_store_facts session_id user_input =
  (trigger MY_NAME_IS first_word_after (lit "name") session_id user_input ;;
   trigger I_AM_A sentence_after (lit "profession") session_id user_input ;;
   trigger I_LIVE_IN sentence_after (lit "location") session_id user_input ;;
   trigger MOVED_TO sentence_after (lit "location") session_id user_input).
Proof. reflexivity. Qed.

(** A trigger that fires stores the derived value, or raises what the
    derivation raises; one that does not fire does nothing. *)
Lemma trigger_fires (phrase key session_id user_input : str)
    (derive : str -> str -> result str) (w : world) :
  contains phrase (lower user_input) = true ->
  trigger phrase derive key session_id user_input w =
  match derive phrase user_input with
  | Ok value => upsert_user_fact session_id key value w
  | Raise e => (w, Raise e)
  end.
Proof.
  intros H. unfold trigger, when, bind, lift. rewrite H.
  destruct (derive phrase user_input); reflexivity.
Qed.

Lemma trigger_silent (phrase key session_id user_input : str)
    (derive : str -> str -> result str) (w : world) :
  contains phrase (lower user_input) = false ->
  trigger phrase derive key session_id user_input w = (w, Ok tt).
Proof. intros H. unfold trigger, when. rewrite H. reflexivity. Qed.

Lemma trigger_step (phrase key session_id user_input : str)
    (derive : str -> str -> result str) (w : world) :
  facts_step w (fst (trigger phrase derive key session_id user_input w)).
Proof.
  destruct (contains phrase (lower user_input)) eqn:C.
  - rewrite trigger_fires by exact C.
    destruct (derive phrase user_input) as [v|e].
    + destruct (upsert_user_fact_step session_id key v w) as (w' & -> & S & _).
      exact S.
    + apply facts_step_refl.
  - rewrite trigger_silent by exact C. apply facts_step_refl.
Qed.

Lemma bind_step {A B} (m : M A) (k : A -> M B) :
  (forall w, facts_step w (fst (m w))) ->
  (forall a w, facts_step w (fst (k a w))) ->
  forall w, facts_step w (fst (bind m k w)).
Proof.
  intros Hm Hk w. unfold bind. specialize (Hm w).
  destruct (m w) as [w' [a|e]]; simpl in *.
  - eapply facts_step_trans; [exact Hm | apply Hk].
  - exact Hm.
Qed.

(** The extractor touches nothing but the fact table and the clock, and
    keeps the fact table free of duplicates, whether it raises or not. *)
Lemma extract_and_store_facts_step (session_id user_input : str) (w : world) :
  facts_step w (fst (extract_and_store_facts session_id user_input w)).
Proof.
  rewrite extract_and_store_facts_triggers.
  repeat (apply bind_step; [intros; apply trigger_step | intros _]).
  intros; apply trigger_step.
Qed.

Lemma last_item_ok {A} (l : list A) :
  l <> [] -> exists x, last_item l = Ok x.
Proof.
  induction l as [|x l IH]; [congruence | intros _].
  destruct l as [|y l]; [exists x; reflexivity|].
  rewrite last_item_cons by congruence. apply IH. congruence.
Qed.

(** The value of a sentence trigger, from the last piece of the split. *)
Lemma sentence_after_piece (phrase user_input piece : str) :
  phrase <> [] ->
  last_item (split_loop phrase user_input) = Ok piece ->
  sentence_after phrase user_input = Ok (upto "."%char (strip piece)).
Proof.
  intros N H. unfold sentence_after, split.
  destruct phrase as [|c p]; [congruence|]. rewrite H.
  change (lit ".") with ["."%char]. apply first_item_split_char.
Qed.

Lemma first_word_after_piece (phrase user_input piece : str) :
  phrase <> [] ->
  last_item (split_loop phrase user_input) = Ok piece ->
  first_word_after phrase user_input = first_item (split_ws (strip piece)).
Proof.
  intros N H. unfold first_word_after, split.
  destruct phrase as [|c p]; [congruence|]. rewrite H. reflexivity.
Qed.

(** A sentence trigger never raises. *)
Lemma sentence_after_total (phrase user_input : str) :
  phrase <> [] -> exists v, sentence_after phrase user_input = Ok v.
Proof.
  intros N.
  destruct (last_item_ok (split_loop phrase user_input)) as [piece H];
    [apply split_loop_nonempty|].
  rewrite (sentence_after_piece _ _ piece) by assumption. eauto.
Qed.

Lemma trigger_sentence_ok (phrase key session_id user_input : str) (w : world) :
  phrase <> [] ->
  exists w', trigger phrase sentence_after key session_id user_input w
             = (w', Ok tt).
Proof.
  intros N. destruct (contains phrase (lower user_input)) eqn:C.
  - rewrite trigger_fires by exact C.
    destruct (sentence_after_total phrase user_input N) as [v ->].
    destruct (upsert_user_fact_step session_id key v w) as (w' & -> & _).
    eauto.
  - rewrite trigger_silent by exact C. eauto.
Qed.

Lemma trigger_name_ok (key session_id user_input : str) (w : world) :
  (contains MY_NAME_IS (lower user_input) = true ->
   exists name, first_word_after MY_NAME_IS user_input = Ok name) ->
  exists w', trigger MY_NAME_IS first_word_after key session_id user_input w
             = (w', Ok tt).
Proof.
  intros H. destruct (contains MY_NAME_IS (lower user_input)) eqn:C.
  - rewrite trigger_fires by exact C. destruct (H eq_refl) as [v ->].
    destruct (upsert_user_fact_step session_id key v w) as (w' & -> & _).
    eauto.
  - rewrite trigger_silent by exact C. eauto.
Qed.

Lemma phrases_nonempty :
  MY_NAME_IS <> [] /\ I_AM_A <> [] /\ I_LIVE_IN <> [] /\ MOVED_TO <> [].
Proof. repeat split; discriminate. Qed.


End Extractor.

(** ** The conversation log *)

Section ConversationLog.

Lemma insert_desc_oldest (r : conversation) (l : list conversation) :
  Forall (older r) l -> insert_desc r l = l ++ [r].
Proof.
  induction 1 as [|x l Hx _ IH]; simpl; [reflexivity|].
  unfold older in Hx.
  destruct (conv_created_at x <? conv_created_at r) eqn:E.
  - apply Z.ltb_lt in E. lia.
  - rewrite IH. reflexivity.
Qed.

(** Newest first is the reverse of a chronological list. *)
Lemma order_by_created_at_desc_rev (l : list conversation) :
  StronglySorted older l -> order_by_created_at_desc l = rev l.
Proof.
  unfold order_by_created_at_desc.
  induction 1 as [|x l _ IH Hx]; simpl; [reflexivity|].
  rewrite IH. apply insert_desc_oldest. apply Forall_rev. exact Hx.
Qed.

Lemma StronglySorted_filter {A} (R : A -> A -> Prop) (p : A -> bool)
    (l : list A) :
  StronglySorted R l -> StronglySorted R (filter p l).
Proof.
  induction 1 as [|x l _ IH Hx]; simpl; [constructor|].
  destruct (p x); [|exact IH].
  constructor; [exact IH|].
  rewrite Forall_forall in *. intros y Hy.
  apply filter_In in Hy as [Hy _]. auto.
Qed.

Lemma StronglySorted_app_inv_r {A} (R : A -> A -> Prop) (l1 l2 : list A) :
  StronglySorted R (l1 ++ l2) -> StronglySorted R l2.
Proof.
  induction l1 as [|x l1 IH]; simpl; [auto|].
  intros H. inversion H; auto.
Qed.

Lemma StronglySorted_snoc {A} (R : A -> A -> Prop) (l : list A) (x : A) :
  StronglySorted R l -> Forall (fun y => R y x) l ->
  StronglySorted R (l ++ [x]).
Proof.
  induction 1 as [|y l Hl IH Hy]; simpl; intros Hx.
  - constructor; constructor.
  - inversion Hx; subst. constructor; [auto|].
    apply Forall_app. split; [exact Hy | constructor; auto].
Qed.

Lemma lastn_split {A} (n : nat) (l : list A) :
  l = firstn (length l - n) l ++ lastn n l.
Proof. unfold lastn. symmetry. apply firstn_skipn. Qed.

Lemma lastn_length {A} (n : nat) (l : list A) :
  length (lastn n l) = Nat.min n (length l).
Proof. unfold lastn. rewrite length_skipn. lia. Qed.

Lemma lastn_snoc {A} (n : nat) (l : list A) (x : A) :
  lastn (S n) (l ++ [x]) = lastn n l ++ [x].
Proof.
  unfold lastn. rewrite length_app. simpl length.
  replace (length l + 1 - S n)%nat with (length l - n)%nat by lia.
  rewrite skipn_app.
  replace (length l - n - length l)%nat with 0%nat by lia.
  reflexivity.
Qed.

Lemma rev_firstn_rev {A} (n : nat) (l : list A) :
  rev (firstn n (rev l)) = lastn n l.
Proof. unfold lastn. rewrite firstn_rev, rev_involutive. reflexivity. Qed.

(** What [get_last_messages] returns on a chronological log: the last
    [limit] rows of the session, oldest first. *)
Lemma get_last_messages_run (session_id : str) (limit : Z) (w : world) :
  0 <= limit <= BIGINT_MAX -> chronological w ->
  get_last_messages session_id limit w =
  (fst (begin w),
   Ok (map entry_of (lastn (Z.to_nat limit) (session_rows session_id w)))).
Proof.
  intros Hl Hw. unfold get_last_messages, bind, select_last, ret. simpl.
  destruct ((limit <? 0) || (BIGINT_MAX <? limit)) eqn:E.
  { apply orb_true_iff in E as [E|E]; apply Z.ltb_lt in E; lia. }
  f_equal. f_equal.
  rewrite <- map_rev, map_map. simpl.
  fold (session_rows session_id w).
  rewrite order_by_created_at_desc_rev
    by (apply StronglySorted_filter; exact Hw).
  rewrite rev_firstn_rev. reflexivity.
Qed.

(** Outside the range of LIMIT the server refuses the statement. *)
Lemma get_last_messages_refused (session_id : str) (limit : Z) (w : world) :
  limit < 0 \/ BIGINT_MAX < limit ->
  snd (get_last_messages session_id limit w) = Raise DataError.
Proof.
  intros Hl. unfold get_last_messages, bind, select_last. simpl.
  assert (E : (limit <? 0) || (BIGINT_MAX <? limit) = true).
  { apply orb_true_iff. destruct Hl as [H|H]; [left | right];
      apply Z.ltb_lt; exact H. }
  rewrite E. reflexivity.
Qed.

Lemma five_in_range : 0 <= 5 <= BIGINT_MAX.
Proof. unfold BIGINT_MAX. simpl. lia. Qed.

Lemma save_message_run (session_id role content : str) (w : world) :
  save_message session_id role content w =
  (mkWorld (conversations w ++
              [mkConversation (conversations_id_seq w) session_id role content
                              (clock w + 1)])
           (conversations_id_seq w + 1) (user_facts w) (user_facts_id_seq w)
           (clock w + 1) (requests w),
   Ok tt).
Proof. reflexivity. Qed.

(** Saving a message keeps the log in order. *)
Lemma save_message_log_ok (session_id role content : str) (w : world) :
  log_ok w -> log_ok (fst (save_message session_id role content w)).
Proof.
  intros [Hs Hc]. rewrite save_message_run. unfold log_ok, chronological.
  simpl. split.
  - apply StronglySorted_snoc; [exact Hs|].
    eapply Forall_impl; [|exact Hc]. unfold older. simpl. intros; lia.
  - apply Forall_app. split.
    + eapply Forall_impl; [|exact Hc]. simpl. intros; lia.
    + constructor; [simpl; lia | constructor].
Qed.

Lemma facts_step_log_ok (w w' : world) :
  facts_step w w' -> log_ok w -> log_ok w'.
Proof.
  intros (Hc & _ & _ & Hk & _) [Hs Hb]. unfold log_ok, chronological.
  rewrite Hc. split; [exact Hs|].
  eapply Forall_impl; [|exact Hb]. simpl. intros; lia.
Qed.

Lemma initial_world_ok : log_ok initial_world /\ unique_facts initial_world.
Proof.
  unfold log_ok, chronological, unique_facts. simpl.
  repeat split; constructor.
Qed.

Lemma fold_append_entry (history : list entry) (messages : list message) :
  fold_left append_entry history messages =
  messages ++ map message_of history.
Proof.
  revert messages. induction history as [|e h IH]; intros messages; simpl.
  - symmetry. apply app_nil_r.
  - rewrite IH. unfold append_entry, message_of.
    destruct (str_eqb (role e) (lit "user")); rewrite <- app_assoc; reflexivity.
Qed.

Lemma lastn_map {A B} (f : A -> B) (n : nat) (l : list A) :
  lastn n (map f l) = map f (lastn n l).
Proof. unfold lastn. rewrite length_map. apply skipn_map. Qed.

Lemma session_rows_saved (content : str) (role : str) (w : world) :
  session_rows SESSION_ID (fst (save_message SESSION_ID role content w)) =
  session_rows SESSION_ID w ++
  [mkConversation (conversations_id_seq w) SESSION_ID role content
                  (clock w + 1)].
Proof.
  rewrite save_message_run. unfold session_rows.
  cbn [fst conversations]. rewrite filter_app. cbn [filter].
  unfold of_session at 2. cbn [conv_session_id].
  rewrite str_eqb_refl. reflexivity.
Qed.

(** The history read in a turn: the last five entries of the log, the
    user turn just saved being the last of them. *)
Lemma history_of_saved (user_input : str) (w w1 : world) :
  log_ok w -> facts_step w w1 ->
  history_of (fst (save_message SESSION_ID (lit "user") user_input w1)) =
  lastn 5 (log_of SESSION_ID w ++ [mkEntry (lit "user") user_input]).
Proof.
  intros Hok S.
  assert (Hok2 : log_ok (fst (save_message SESSION_ID (lit "user")
                                 user_input w1))).
  { apply save_message_log_ok. exact (facts_step_log_ok w w1 S Hok). }
  unfold history_of.
  rewrite get_last_messages_run by (apply five_in_range || apply Hok2).
  cbn [snd]. rewrite session_rows_saved.
  change (Z.to_nat 5) with 5%nat. rewrite <- lastn_map, map_app.
  unfold log_of, session_rows. destruct S as (-> & _). reflexivity.
Qed.

End ConversationLog.

(** ** White space and the first word *)

Section Words.

Lemma isspace_lower_char (c : ascii) : isspace (lower_char c) = isspace c.
Proof.
  destruct c as [b0 b1 b2 b3 b4 b5 b6 b7].
  destruct b0, b1, b2, b3, b4, b5, b6, b7; reflexivity.
Qed.

Lemma has_word_lower (s : str) : has_word (lower s) = has_word s.
Proof.
  unfold has_word, lower. induction s as [|c s IH]; simpl; [reflexivity|].
  rewrite isspace_lower_char, IH. reflexivity.
Qed.

Lemma has_word_app (a b : str) : has_word (a ++ b) = has_word a || has_word b.
Proof. apply existsb_app. Qed.

Lemma has_word_rev (s : str) : has_word (rev s) = has_word s.
Proof.
  induction s as [|c s IH]; simpl; [reflexivity|].
  rewrite has_word_app, IH. simpl. rewrite orb_false_r. apply orb_comm.
Qed.

Lemma has_word_dropwhile (s : str) :
  has_word (dropwhile isspace s) = has_word s.
Proof.
  induction s as [|c s IH]; simpl; [reflexivity|].
  destruct (isspace c) eqn:E; simpl; [exact IH | rewrite E; reflexivity].
Qed.

Lemma has_word_strip (s : str) : has_word (strip s) = has_word s.
Proof.
  unfold strip, rstrip, lstrip.
  rewrite has_word_rev, has_word_dropwhile, has_word_rev.
  apply has_word_dropwhile.
Qed.

(** A text with a character that is not white space has a first word. *)
Lemma split_ws_has_word (s : str) :
  has_word s = true -> exists word, first_item (split_ws s) = Ok word.
Proof.
  induction s as [|c s IH]; simpl; [discriminate|].
  destruct (isspace c); simpl; [exact IH | intros _].
  destruct s as [|d s]; [eexists; reflexivity|].
  destruct (isspace d); [eexists; reflexivity|].
  destruct (split_ws (d :: s)); eexists; reflexivity.
Qed.

(** A text without one has no word at all: indexing the words raises. *)
Lemma split_ws_blank (s : str) : has_word s = false -> split_ws s = [].
Proof.
  induction s as [|c s IH]; simpl; [reflexivity|].
  destruct (isspace c); simpl; [exact IH | discriminate].
Qed.

(** A text in which a phrase with a word was found, in either case, has
    a word. *)
Lemma contains_lower_has_word (phrase s : str) :
  has_word phrase = true -> contains phrase (lower s) = true ->
  has_word s = true.
Proof.
  intros Hp Hc. apply contains_iff in Hc as (a & b & E).
  rewrite <- has_word_lower, E, !has_word_app, Hp.
  apply orb_true_r.
Qed.

End Words.

(** ** One turn of the chat *)

Section Turn.

Variable chat : list message -> result str.

Lemma get_user_facts_run (session_id : str) (w : world) :
  get_user_facts session_id w = (fst (begin w), Ok (facts_of session_id w)).
Proof. reflexivity. Qed.

Lemma get_last_messages_5 (w : world) :
  get_last_messages SESSION_ID 5 w = (fst (begin w), Ok (history_of w)).
Proof. reflexivity. Qed.

Lemma assembled_messages_begin (user_input : str) (w : world) :
  assembled_messages user_input (fst (begin w)) =
  assembled_messages user_input w.
Proof. reflexivity. Qed.

(** The turn from the point where the user turn has been saved. *)
Lemma request_and_reply (user_input : str) (w2 : world) :
  (facts <- get_user_facts SESSION_ID ;;
   history <- get_last_messages SESSION_ID 5 ;;
   response <- invoke chat
     (fold_left append_entry history [SystemMessage (system_prompt_of facts)]
      ++ [HumanMessage user_input]) ;;
   save_message SESSION_ID (lit "assistant") response ;;
   ret response) w2 =
  let messages := assembled_messages user_input w2 in
  let w3 := after_request messages w2 in
  match chat messages with
  | Ok response =>
      (fst (save_message SESSION_ID (lit "assistant") response w3),
       Ok response)
  | Raise e => (w3, Raise e)
  end.
Proof.
  unfold bind at 1. rewrite get_user_facts_run.
  unfold bind at 1. rewrite get_last_messages_5.
  rewrite fold_append_entry.
  unfold bind at 1. unfold invoke.
  change (history_of (fst (begin w2))) with (history_of w2).
  unfold assembled_messages, after_request. simpl.
  destruct (chat _); reflexivity.
Qed.

(** A turn whose extraction completes: the user turn is saved, the
    request is assembled and sent, and only a reply is saved. *)
Lemma chat_with_memory_run (user_input : str) (w w1 : world) :
  extract_and_store_facts SESSION_ID user_input w = (w1, Ok tt) ->
  chat_with_memory chat user_input w =
  let w2 := fst (save_message SESSION_ID (lit "user") user_input w1) in
  let messages := assembled_messages user_input w2 in
  let w3 := after_request messages w2 in
  match chat messages with
  | Ok response =>
      (fst (save_message SESSION_ID (lit "assistant") response w3), Ok response)
  | Raise e => (w3, Raise e)
  end.
Proof.
  intros H. unfold chat_with_memory. unfold bind at 1. rewrite H.
  unfold bind at 1.
  change (save_message SESSION_ID (lit "user") user_input w1)
    with (fst (save_message SESSION_ID (lit "user") user_input w1), Ok tt).
  apply request_and_reply.
Qed.

(** A turn whose extraction raises ends there: nothing is logged and
    nothing is sent. *)
Lemma chat_with_memory_raise (user_input : str) (w w1 : world) (e : exn) :
  extract_and_store_facts SESSION_ID user_input w = (w1, Raise e) ->
  chat_with_memory chat user_input w = (w1, Raise e).
Proof.
  intros H. unfold chat_with_memory. unfold bind at 1. rewrite H. reflexivity.
Qed.

Lemma log_ok_later (w w' : world) :
  conversations w' = conversations w -> clock w <= clock w' ->
  log_ok w -> log_ok w'.
Proof.
  intros Hc Hk [Hs Hb]. unfold log_ok, chronological. rewrite Hc.
  split; [exact Hs|]. eapply Forall_impl; [|exact Hb]. simpl. intros; lia.
Qed.

(** A turn keeps the log chronological and the facts free of duplicates,
    whether it returns or raises. *)
Lemma chat_with_memory_ok (user_input : str) (w : world) :
  log_ok w /\ unique_facts w ->
  log_ok (fst (chat_with_memory chat user_input w)) /\
  unique_facts (fst (chat_with_memory chat user_input w)).
Proof.
  intros [L U].
  pose proof (extract_and_store_facts_step SESSION_ID user_input w) as S.
  destruct (extract_and_store_facts SESSION_ID user_input w) as [w1 [[]|e]] eqn:E;
    simpl in S.
  - rewrite (chat_with_memory_run user_input w w1 E). cbv zeta.
    set (w2 := fst (save_message SESSION_ID (lit "user") user_input w1)).
    assert (L2 : log_ok w2)
      by (apply save_message_log_ok; exact (facts_step_log_ok w w1 S L)).
    assert (U1 : unique_facts w1) by (apply S; exact U).
    set (w3 := after_request (assembled_messages user_input w2) w2).
    assert (L3 : log_ok w3)
      by (apply (log_ok_later w2); [reflexivity | simpl; lia | exact L2]).
    destruct (chat (assembled_messages user_input w2)) as [response|e].
    + split; [apply save_message_log_ok; exact L3 | exact U1].
    + split; [exact L3 | exact U1].
  - rewrite (chat_with_memory_raise user_input w w1 e E). simpl.
    split; [exact (facts_step_log_ok w w1 S L) | apply S; exact U].
Qed.

End Turn.

(** Every world the program reaches has a chronological log and at most
    one row per (session, key). *)
Lemma reachable_ok (w : world) : reachable w -> log_ok w /\ unique_facts w.
Proof.
  induction 1 as [|chat user_input w _ IH].
  - exact initial_world_ok.
  - apply chat_with_memory_ok. exact IH.
Qed.

(** ** Properties of the program *)

(** *** The conversation log *)

(** C3, as the code has it: on a chronological log and for a limit that
    is not negative and is a [bigint] (below 2^63), the rows of the
    session are in the order of their time stamps and [get_last_messages]
    returns the entries of a suffix [recent] of them: at most [limit]
    (exactly [limit], or all the rows when there are fewer), oldest
    first. *)
Theorem get_last_messages_suffix (session_id : str) (limit : Z) (w : world) :
  0 <= limit <= BIGINT_MAX -> chronological w ->
  StronglySorted older (session_rows session_id w) /\
  exists earlier recent,
    session_rows session_id w = earlier ++ recent /\
    snd (get_last_messages session_id limit w) = Ok (map entry_of recent) /\
    Z.of_nat (length recent) <= limit /\
    Z.of_nat (length recent) =
      Z.min limit (Z.of_nat (length (session_rows session_id w))) /\
    StronglySorted older recent.
Proof.
  intros Hl Hw.
  assert (Hrows : StronglySorted older (session_rows session_id w))
    by (apply StronglySorted_filter; exact Hw).
  split; [exact Hrows|].
  set (rows := session_rows session_id w) in *.
  exists (firstn (length rows - Z.to_nat limit) rows),
         (lastn (Z.to_nat limit) rows).
  split; [apply lastn_split|].
  split; [rewrite get_last_messages_run by assumption; reflexivity|].
  rewrite lastn_length. split; [lia | split; [lia|]].
  apply StronglySorted_app_inv_r
    with (l1 := firstn (length rows - Z.to_nat limit) rows).
  rewrite <- lastn_split. exact Hrows.
Qed.

Lemma three_messages_chronological : chronological three_messages.
Proof.
  unfold chronological, three_messages. simpl.
  repeat constructor; unfold older; simpl; lia.
Defined.

Lemma get_last_messages_suffix_witness :
  StronglySorted older (session_rows SESSION_ID three_messages) /\
  exists earlier recent,
    session_rows SESSION_ID three_messages = earlier ++ recent /\
    snd (get_last_messages SESSION_ID 2 three_messages)
      = Ok (map entry_of recent) /\
    Z.of_nat (length recent) <= 2 /\
    Z.of_nat (length recent) =
      Z.min 2 (Z.of_nat (length (session_rows SESSION_ID three_messages))) /\
    StronglySorted older recent.
Proof.
  apply get_last_messages_suffix;
    [unfold BIGINT_MAX; simpl; lia | exact three_messages_chronological].
Defined.

(** C3, for every limit that is not negative, fails: the limit 2^63 is
    not a [bigint], and the server refuses the statement. *)
Lemma get_last_messages_beyond_bigint :
  0 <= 2 ^ 63 /\
  chronological three_messages /\
  snd (get_last_messages SESSION_ID (2 ^ 63) three_messages)
  = Raise DataError.
Proof.
  split; [simpl; lia|]. split; [exact three_messages_chronological|].
  vm_compute. reflexivity.
Qed.

(** *** The fact store *)

(** C4: in a fact table with at most one row per (session, key), an
    upsert completes, [get_user_facts] then maps the key to the value
    just written, and the table still has at most one row per (session,
    key). *)
Theorem upsert_then_get (session_id key value : str) (w : world) :
  unique_facts w ->
  exists w',
    upsert_user_fact session_id key value w = (w', Ok tt) /\
    dict_get key (facts_of session_id w') = Some value /\
    unique_facts w'.
Proof.
  intros U.
  destruct (upsert_user_fact_step session_id key value w) as (w' & E & S & G).
  exists w'. split; [exact E|]. split; [exact (G U)|].
  destruct S as (_ & _ & _ & _ & S). exact (S U).
Qed.

Lemma upsert_then_get_witness :
  exists w',
    upsert_user_fact SESSION_ID (lit "location") (lit "Denver") boston_world
      = (w', Ok tt) /\
    dict_get (lit "location") (facts_of SESSION_ID w') = Some (lit "Denver") /\
    unique_facts w'.
Proof.
  apply upsert_then_get.
  unfold unique_facts, boston_world. simpl.
  repeat constructor. simpl. tauto.
Defined.

(** *** The fact extractor *)

(** C1: on "Hi, my name is Alice and I live in Boston." and an empty fact
    store the extractor stores the name "Alice", and as location not
    "Boston" but the whole sentence up to its period: "i live in" is found
    in the lower-cased text and then not found by the split of the
    original text, which has "I live in". *)
Theorem alice_location_is_whole_sentence :
  facts_of SESSION_ID
    (fst (extract_and_store_facts SESSION_ID ALICE initial_world)) =
  [(lit "name", lit "Alice");
   (lit "location", lit "Hi, my name is Alice and I live in Boston")].
Proof. vm_compute. reflexivity. Qed.

(** C5: an utterance that ends at "my name is" makes the extractor raise
    [IndexError], in every session and every world, and nothing is
    stored: there is no word after the phrase to take. *)
Theorem name_trigger_raises_at_end (session_id : str) (w : world) :
  extract_and_store_facts session_id (lit "my name is") w
  = (w, Raise IndexError).
Proof.
  rewrite extract_and_store_facts_triggers. unfold bind at 1.
  rewrite trigger_fires by reflexivity.
  replace (first_word_after MY_NAME_IS (lit "my name is"))
    with (@Raise str IndexError) by (vm_compute; reflexivity).
  reflexivity.
Qed.

(** The other three triggers store an empty value without raising. *)
Example sentence_trigger_stores_empty_value :
  extract_and_store_facts SESSION_ID (lit "i live in") initial_world =
  (mkWorld [] 1 [mkFact 1 SESSION_ID (lit "location") [] 1] 2 1 [], Ok tt).
Proof. vm_compute. reflexivity. Qed.

(** C9: an utterance whose lower-cased form contains none of the four
    phrases leaves the world, and so the fact store of every session, as
    it was. *)
Theorem no_trigger_no_change (session_id user_input : str) (w : world) :
  contains MY_NAME_IS (lower user_input) = false ->
  contains I_AM_A (lower user_input) = false ->
  contains I_LIVE_IN (lower user_input) = false ->
  contains MOVED_TO (lower user_input) = false ->
  extract_and_store_facts session_id user_input w = (w, Ok tt).
Proof.
  intros H1 H2 H3 H4. rewrite extract_and_store_facts_triggers.
  unfold bind. rewrite !trigger_silent by assumption. reflexivity.
Qed.

Lemma no_trigger_no_change_witness :
  extract_and_store_facts SESSION_ID HELLO boston_world = (boston_world, Ok tt).
Proof. apply no_trigger_no_change; reflexivity. Defined.

(** C6, as the specification has it, fails: in "i am a doctor ." the text
    after the only occurrence of "i am a" is " doctor ."; cut at the
    period and then trimmed it is "doctor", and the extractor stores
    "doctor " with the space before the period. *)
Lemma sentence_trigger_cut_then_trim_fails :
  DOCTOR = [] ++ I_AM_A ++ lit " doctor ." /\
  contains I_AM_A (tl (I_AM_A ++ lit " doctor .")) = false /\
  contains I_AM_A (lower DOCTOR) = true /\
  spec_sentence (lit " doctor .") = lit "doctor" /\
  facts_of SESSION_ID
    (fst (extract_and_store_facts SESSION_ID DOCTOR initial_world))
  = [(lit "profession", lit "doctor ")] /\
  dict_get (lit "profession")
    (facts_of SESSION_ID
       (fst (extract_and_store_facts SESSION_ID DOCTOR initial_world)))
  <> Some (spec_sentence (lit " doctor .")).
Proof.
  repeat split; try (vm_compute; reflexivity).
  vm_compute. discriminate.
Qed.

(** The second example of the specification: "I moved to Denver." after a
    stored location "Boston" leaves the location "Denver". *)
Example denver_after_boston :
  facts_of SESSION_ID boston_world = [(lit "location", lit "Boston")] /\
  facts_of SESSION_ID
    (fst (extract_and_store_facts SESSION_ID DENVER boston_world))
  = [(lit "location", lit "Denver")].
Proof. split; vm_compute; reflexivity. Qed.

Example shout_profession :
  facts_of SESSION_ID
    (fst (extract_and_store_facts SESSION_ID SHOUT initial_world))
  = [(lit "profession", lit "I AM A PILOT")].
Proof. vm_compute. reflexivity. Qed.

(** *** The turn *)



(** The request of that turn, written out. *)
Example denver_request :
  requests (fst (chat_with_memory failing_chat DENVER three_messages)) =
  [[SystemMessage (lit "User facts: Location = Denver");
    HumanMessage (lit "one");
    AIMessage (lit "two");
    HumanMessage (lit "three");
    HumanMessage DENVER;
    HumanMessage DENVER]].
Proof. vm_compute. reflexivity. Qed.

(** C8: in a turn whose extraction completes exactly one request is sent,
    and if the endpoint fails on it the turn raises that failure with no
    reply, the log has gained the user turn and nothing else, and the facts
    are as the extraction left them. *)
Theorem endpoint_failure_keeps_user_turn
    (chat : list message -> result str) (user_input : str) (w w1 : world) :
  extract_and_store_facts SESSION_ID user_input w = (w1, Ok tt) ->
  exists messages,
    requests (fst (chat_with_memory chat user_input w))
      = requests w ++ [messages] /\
    forall e,
      chat messages = Raise e ->
      snd (chat_with_memory chat user_input w) = Raise e /\
      conversations (fst (chat_with_memory chat user_input w)) =
        conversations w ++
        [mkConversation (conversations_id_seq w) SESSION_ID (lit "user")
                        user_input (clock w1 + 1)] /\
      user_facts (fst (chat_with_memory chat user_input w)) = user_facts w1.
Proof.
  intros Hex.
  pose proof (extract_and_store_facts_step SESSION_ID user_input w) as S.
  rewrite Hex in S. simpl in S. destruct S as (Hc & Hs & Hr & _).
  rewrite (chat_with_memory_run chat user_input w w1 Hex). cbv zeta.
  set (w2 := fst (save_message SESSION_ID (lit "user") user_input w1)).
  exists (assembled_messages user_input w2). split.
  - destruct (chat (assembled_messages user_input w2));
      simpl; rewrite Hr; reflexivity.
  - intros e He. rewrite He. simpl. rewrite Hc, Hs. auto.
Qed.

Lemma endpoint_failure_keeps_user_turn_witness :
  exists messages,
    requests (fst (chat_with_memory failing_chat DENVER three_messages))
      = requests three_messages ++ [messages] /\
    forall e,
      failing_chat messages = Raise e ->
      snd (chat_with_memory failing_chat DENVER three_messages) = Raise e /\
      conversations (fst (chat_with_memory failing_chat DENVER three_messages)) =
        conversations three_messages ++
        [mkConversation (conversations_id_seq three_messages) SESSION_ID
                        (lit "user") DENVER (clock denver_world + 1)] /\
      user_facts (fst (chat_with_memory failing_chat DENVER three_messages))
        = user_facts denver_world.
Proof.
  apply (endpoint_failure_keeps_user_turn failing_chat DENVER three_messages
           denver_world).
  reflexivity.
Defined.

(** The turn of the specification's end-to-end example: "My name is Sam."
    in a fresh world does not match "my name is" verbatim and stores the
    first word of the utterance. *)
Example sam_turn :
  facts_of SESSION_ID
    (fst (chat_with_memory (fun _ => Ok (lit "Hello")) (lit "My name is Sam.")
            initial_world))
  = [(lit "name", lit "My")] /\
  log_of SESSION_ID
    (fst (chat_with_memory (fun _ => Ok (lit "Hello")) (lit "My name is Sam.")
            initial_world))
  = [mkEntry (lit "user") (lit "My name is Sam.");
     mkEntry (lit "assistant") (lit "Hello")].
Proof. split; vm_compute; reflexivity. Qed.

(** ** More on the fact store: an upsert in the dictionary of a session *)

Section UpsertInDictionary.

Lemma dict_set_absent (k v : str) (d : dict) :
  ~ In k (keys d) -> dict_set k v d = d ++ [(k, v)].
Proof.
  unfold keys. induction d as [|[k0 v0] d IH]; simpl; intros N; [reflexivity|].
  destruct (str_eqb k0 k) eqn:E.
  - apply str_eqb_eq in E. tauto.
  - rewrite IH by tauto. reflexivity.
Qed.

(** Rows with distinct keys are their own dictionary. *)
Lemma dict_of_rows_distinct (l : list (str * str)) :
  NoDup (keys l) -> dict_of_rows l = l.
Proof.
  unfold keys. induction l as [|p l IH] using rev_ind; intros ND; [reflexivity|].
  rewrite dict_of_rows_snoc. rewrite map_app in ND. simpl in ND.
  apply NoDup_remove in ND as [ND Hnin]. rewrite app_nil_r in ND, Hnin.
  rewrite IH by exact ND. rewrite dict_set_absent by exact Hnin.
  destruct p; reflexivity.
Qed.

(** The rows of one session are still one per (session, key). *)
Lemma session_pk_distinct (session_id : str) (rows : list user_fact) :
  NoDup (map fact_pk rows) ->
  NoDup (map fact_pk (filter (in_session session_id) rows)).
Proof.
  intros ND. induction rows as [|x t IH]; cbn [filter map] in *; [constructor|].
  apply NoDup_cons_iff in ND as [Hx Ht].
  destruct (in_session session_id x); cbn [map]; [|auto].
  apply NoDup_cons_iff. split; [|auto].
  rewrite in_map_iff. intros (y & E & Hy). apply filter_In in Hy.
  apply Hx. rewrite <- E. apply in_map. tauto.
Qed.

Lemma session_keys_distinct (session_id : str) (rows : list user_fact) :
  NoDup (map fact_pk rows) ->
  NoDup (keys (map fact_item (filter (in_session session_id) rows))).
Proof.
  intros ND. unfold keys. rewrite map_map. simpl.
  apply (session_pk_distinct session_id) in ND.
  apply (NoDup_map_inv (fun k => (session_id, k))).
  rewrite map_map.
  erewrite map_ext_in; [exact ND|].
  intros r Hr. apply filter_In in Hr as [_ Hs].
  apply str_eqb_eq in Hs. unfold fact_pk. rewrite Hs. reflexivity.
Qed.

(** With at most one row per (session, key), [get_user_facts] returns the
    rows of the session as they are, in table order. *)
Lemma facts_of_rows (session_id : str) (w : world) :
  unique_facts w ->
  facts_of session_id w =
  map fact_item (filter (in_session session_id) (user_facts w)).
Proof.
  intros U. rewrite facts_of_eq.
  apply (dict_of_rows_distinct (map fact_item (filter (in_session session_id)
                                          (user_facts w)))).
  apply session_keys_distinct. exact U.
Qed.

Lemma filter_none {A} (p : A -> bool) (l : list A) :
  (forall x, In x l -> p x = false) -> filter p l = [].
Proof.
  induction l as [|x l IH]; intros H; [reflexivity|].
  cbn [filter]. rewrite (H x (in_eq x l)). apply IH.
  intros y Hy. apply H. apply in_cons. exact Hy.
Qed.

Lemma filter_all {A} (p : A -> bool) (l : list A) :
  (forall x, In x l -> p x = true) -> filter p l = l.
Proof.
  induction l as [|x l IH]; intros H; [reflexivity|].
  cbn [filter]. rewrite (H x (in_eq x l)). f_equal. apply IH.
  intros y Hy. apply H. apply in_cons. exact Hy.
Qed.

(** Under the primary key an UPDATE by id finds one row. *)
Lemma rows_with_id (r : user_fact) (rows : list user_fact) :
  NoDup (map fact_id rows) -> In r rows ->
  filter (with_id (fact_id r)) rows = [r].
Proof.
  induction rows as [|x t IH]; intros ND Hin; [destruct Hin|].
  cbn [map] in ND. apply NoDup_cons_iff in ND as [Hx Ht].
  cbn [filter]. unfold with_id at 1.
  destruct Hin as [-> | Hin].
  - rewrite Z.eqb_refl. f_equal. apply filter_none.
    intros y Hy. unfold with_id. apply Z.eqb_neq. intros E.
    apply Hx. rewrite <- E. apply in_map. exact Hy.
  - destruct (fact_id x =? fact_id r) eqn:E.
    + exfalso. apply Hx. apply Z.eqb_eq in E. rewrite E.
      apply in_map. exact Hin.
    + apply IH; assumption.
Qed.

Lemma updated_one (value : str) (now : Z) (r : user_fact)
    (rows : list user_fact) :
  NoDup (map fact_id rows) -> In r rows ->
  updated value now (fact_id r) rows =
  filter (fun x => negb (with_id (fact_id r) x)) rows ++ [revalued value now r].
Proof.
  intros ND Hin. unfold updated. rewrite (rows_with_id r rows ND Hin).
  reflexivity.
Qed.

Lemma filter_filter {A} (p q : A -> bool) (l : list A) :
  filter p (filter q l) = filter q (filter p l).
Proof.
  induction l as [|x l IH]; [reflexivity|]. cbn [filter].
  destruct (q x) eqn:Q, (p x) eqn:P; cbn [filter];
    rewrite ?Q, ?P, IH; reflexivity.
Qed.

Lemma filter_map_swap {A B} (f : A -> B) (q : B -> bool) (l : list A) :
  filter q (map f l) = map f (filter (fun x => q (f x)) l).
Proof.
  induction l as [|x l IH]; [reflexivity|]. cbn [map filter].
  destruct (q (f x)); cbn [map]; rewrite IH; reflexivity.
Qed.

(** In its session the row of a key is the row of its id. *)
Lemma id_is_key (session_id key : str) (r x : user_fact)
    (rows : list user_fact) :
  NoDup (map fact_id rows) -> NoDup (map fact_pk rows) ->
  In r rows -> fact_pk r = (session_id, key) ->
  In x rows -> in_session session_id x = true ->
  with_id (fact_id r) x = str_eqb (fact_key x) key.
Proof.
  intros Hid Hpk Hr Er Hx Sx. apply str_eqb_eq in Sx.
  unfold with_id.
  destruct (fact_id x =? fact_id r) eqn:E1, (str_eqb (fact_key x) key) eqn:E2;
    try reflexivity; exfalso.
  - apply Z.eqb_eq in E1. apply str_eqb_neq in E2.
    rewrite (NoDup_map_eq fact_id rows x r Hid Hx Hr E1) in E2.
    unfold fact_pk in Er. congruence.
  - apply Z.eqb_neq in E1. apply str_eqb_eq in E2. apply E1.
    rewrite (NoDup_map_eq fact_pk rows x r Hpk Hx Hr); [reflexivity|].
    rewrite Er. unfold fact_pk. congruence.
Qed.

(** An upsert puts the key last in the dictionary of the session, with
    the value. *)
Lemma upsert_assigns (session_id key value : str) (w : world) :
  facts_wf w ->
  facts_of session_id (fst (upsert_user_fact session_id key value w)) =
  dict_move key value (facts_of session_id w).
Proof.
  intros [U [Hid Hlt]].
  assert (U' : unique_facts (fst (upsert_user_fact session_id key value w))).
  { destruct (upsert_user_fact_step session_id key value w)
      as (w' & -> & S & _). apply S. exact U. }
  rewrite (facts_of_rows session_id _ U'), (facts_of_rows session_id w U).
  unfold dict_move, dict_del.
  destruct (List.find (fact_matches session_id key) (user_facts w))
    as [r|] eqn:F.
  - rewrite (upsert_user_fact_update session_id key value w r F).
    apply find_some in F as [Hin Hm]. apply fact_matches_iff in Hm.
    cbn [fst user_facts].
    rewrite (updated_one value _ r _ Hid Hin), filter_app, map_app.
    cbn [filter]. unfold in_session at 2. unfold revalued at 1.
    cbn [fact_session_id].
    assert (Hs : str_eqb (fact_session_id r) session_id = true)
      by (apply str_eqb_eq; unfold fact_pk in Hm; congruence).
    rewrite Hs. cbn [map]. unfold fact_item at 2, revalued.
    cbn [fact_key fact_value].
    assert (Hk : fact_key r = key) by (unfold fact_pk in Hm; congruence).
    rewrite Hk. f_equal.
    rewrite filter_filter, filter_map_swap. f_equal.
    apply filter_ext_in. intros x Hx. apply filter_In in Hx as [Hx Sx].
    cbn [fst fact_item]. f_equal.
    exact (id_is_key session_id key r x _ Hid U Hin Hm Hx Sx).
  - rewrite (upsert_user_fact_insert session_id key value w F).
    cbn [fst user_facts]. rewrite filter_app, map_app. cbn [filter].
    unfold in_session at 2. cbn [fact_session_id].
    rewrite str_eqb_refl. cbn [map]. unfold fact_item at 2.
    cbn [fact_key fact_value]. f_equal.
    symmetry. apply filter_all. intros p Hp.
    apply in_map_iff in Hp as [x [<- Hx]].
    apply filter_In in Hx as [Hx Sx]. apply str_eqb_eq in Sx.
    cbn [fst fact_item]. apply negb_true_iff, str_eqb_neq. intros Hk.
    pose proof (find_none _ _ F x Hx) as Hf.
    assert (fact_matches session_id key x = true)
      by (apply fact_matches_iff; unfold fact_pk; congruence).
    congruence.
Qed.

(** And changes nothing in the dictionary of another session. *)
Lemma upsert_elsewhere (session_id session' key value : str) (w : world) :
  facts_pk_ok w -> session' <> session_id ->
  facts_of session' (fst (upsert_user_fact session_id key value w)) =
  facts_of session' w.
Proof.
  intros [Hid Hlt] N. rewrite !facts_of_eq.
  fold (in_session session').
  destruct (List.find (fact_matches session_id key) (user_facts w))
    as [r|] eqn:F.
  - rewrite (upsert_user_fact_update session_id key value w r F).
    apply find_some in F as [Hin Hm]. apply fact_matches_iff in Hm.
    cbn [fst user_facts].
    rewrite (updated_one value _ r _ Hid Hin), filter_app.
    cbn [filter]. unfold in_session at 2. unfold revalued at 1.
    cbn [fact_session_id].
    assert (Hs : str_eqb (fact_session_id r) session' = false)
      by (apply str_eqb_neq; unfold fact_pk in Hm; congruence).
    rewrite Hs, app_nil_r. rewrite filter_filter. f_equal. f_equal.
    apply filter_all. intros x Hx.
    apply filter_In in Hx as [Hx Sx]. apply str_eqb_eq in Sx.
    apply negb_true_iff. unfold with_id. apply Z.eqb_neq. intros E.
    rewrite (NoDup_map_eq fact_id _ x r Hid Hx Hin E) in Sx.
    apply str_eqb_neq in Hs. congruence.
  - rewrite (upsert_user_fact_insert session_id key value w F).
    cbn [fst user_facts]. rewrite filter_app. cbn [filter].
    unfold in_session at 2. cbn [fact_session_id].
    assert (E : str_eqb session_id session' = false)
      by (apply str_eqb_neq; congruence).
    rewrite E, app_nil_r. reflexivity.
Qed.

(** An upsert keeps the primary key and the one row per (session, key). *)
Lemma upsert_user_fact_wf (session_id key value : str) (w : world) :
  facts_wf w -> facts_wf (fst (upsert_user_fact session_id key value w)).
Proof.
  intros [U [Hid Hlt]].
  split.
  { destruct (upsert_user_fact_step session_id key value w)
      as (w' & -> & S & _). apply S. exact U. }
  unfold facts_pk_ok.
  destruct (List.find (fact_matches session_id key) (user_facts w))
    as [r|] eqn:F.
  - rewrite (upsert_user_fact_update session_id key value w r F).
    cbn [fst user_facts user_facts_id_seq]. split.
    + eapply Permutation_NoDup; [|exact Hid].
      apply Permutation_sym, updated_perm. reflexivity.
    + unfold updated. apply Forall_app. split.
      * apply Forall_forall. intros x Hx. apply filter_In in Hx as [Hx _].
        rewrite Forall_forall in Hlt. exact (Hlt x Hx).
      * apply Forall_forall. intros x Hx.
        apply in_map_iff in Hx as [y [<- Hy]].
        apply filter_In in Hy as [Hy _].
        rewrite Forall_forall in Hlt. exact (Hlt y Hy).
  - rewrite (upsert_user_fact_insert session_id key value w F).
    cbn [fst user_facts user_facts_id_seq]. split.
    + rewrite map_app. simpl. apply NoDup_snoc; [exact Hid|].
      intros Hin. apply in_map_iff in Hin as [r [E Hr]].
      rewrite Forall_forall in Hlt. specialize (Hlt r Hr). lia.
    + apply Forall_app. split.
      * eapply Forall_impl; [|exact Hlt]. simpl. intros; lia.
      * constructor; [simpl; lia | constructor].
Qed.

End UpsertInDictionary.

(** *** Properties *)


Lemma boston_world_wf : facts_wf boston_world.
Proof.
  unfold facts_wf, unique_facts, facts_pk_ok, boston_world. simpl.
  repeat split; repeat constructor; simpl; try tauto; lia.
Defined.



Example updated_key_comes_last :
  facts_of SESSION_ID two_facts_world =
    [(lit "location", lit "Boston"); (lit "name", lit "Bo")] /\
  facts_of SESSION_ID
    (fst (upsert_user_fact SESSION_ID (lit "location") (lit "Denver")
            two_facts_world)) =
    [(lit "name", lit "Bo"); (lit "location", lit "Denver")].
Proof. split; vm_compute; reflexivity. Qed.

(** X2: an upsert for one session leaves what [get_user_facts] returns
    for every other session as it was. *)
Theorem upsert_other_session (session_id session' key value : str) (w : world) :
  facts_pk_ok w -> session' <> session_id ->
  facts_of session' (fst (upsert_user_fact session_id key value w)) =
  facts_of session' w.
Proof. exact (upsert_elsewhere session_id session' key value w). Qed.

Lemma upsert_other_session_witness :
  facts_of (lit "other")
    (fst (upsert_user_fact SESSION_ID (lit "location") (lit "Denver")
            boston_world))
  = facts_of (lit "other") boston_world.
Proof.
  apply upsert_other_session; [apply boston_world_wf | discriminate].
Defined.

(** ** More on white space: what the triggers can store *)

Section Trimming.

Lemma takewhile_dropwhile (p : ascii -> bool) (s : str) :
  s = takewhile p s ++ dropwhile p s.
Proof.
  induction s as [|c s IH]; simpl; [reflexivity|].
  destruct (p c); simpl; [f_equal; exact IH | reflexivity].
Qed.

Lemma takewhile_all (p : ascii -> bool) (s : str) :
  forallb p (takewhile p s) = true.
Proof.
  induction s as [|c s IH]; simpl; [reflexivity|].
  destruct (p c) eqn:E; simpl; [rewrite E; exact IH | reflexivity].
Qed.

(** [rstrip] takes a run of white space off the end. *)
Lemma rstrip_spaces (s : str) :
  exists spaces, s = rstrip s ++ spaces /\ forallb isspace spaces = true.
Proof.
  unfold rstrip. exists (rev (takewhile isspace (rev s))). split.
  - rewrite <- rev_app_distr, <- takewhile_dropwhile, rev_involutive.
    reflexivity.
  - rewrite forallb_forall. intros c Hc. apply in_rev in Hc.
    pose proof (takewhile_all isspace (rev s)) as H.
    rewrite forallb_forall in H. exact (H c Hc).
Qed.

Lemma lstrip_head (s : str) (c : ascii) (t : str) :
  lstrip s = c :: t -> isspace c = false.
Proof.
  unfold lstrip. induction s as [|x s IH]; simpl; [discriminate|].
  destruct (isspace x) eqn:E; [exact IH | intros [= <- _]; exact E].
Qed.

Lemma rstrip_head (s : str) (c : ascii) (t : str) :
  isspace c = false -> exists t', rstrip (c :: s) = c :: t'.
Proof.
  intros Hc. destruct (rstrip_spaces (c :: s)) as (sp & E & Hsp).
  destruct (rstrip (c :: s)) as [|x t'] eqn:R.
  - simpl in E. subst sp. simpl in Hsp. rewrite Hc in Hsp. discriminate.
  - simpl in E. injection E as -> _. eauto.
Qed.

(** What [strip] returns does not begin with white space. *)
Lemma strip_head (s : str) (c : ascii) (t : str) :
  strip s = c :: t -> isspace c = false.
Proof.
  unfold strip. destruct (lstrip s) as [|x l] eqn:L.
  - discriminate.
  - pose proof (lstrip_head s x l L) as Hx.
    destruct (rstrip_head l x l Hx) as [t' R]. rewrite R.
    intros [= <- _]. exact Hx.
Qed.

Lemma upto_absent (c : ascii) (s : str) : ~ In c (upto c s).
Proof.
  induction s as [|x s IH]; simpl; [tauto|].
  destruct (ascii_dec x c); simpl; [tauto|]. intros [E | H]; auto.
Qed.

Lemma upto_head (c x : ascii) (s t : str) :
  upto c s = x :: t -> exists s', s = x :: s'.
Proof.
  destruct s as [|y s]; simpl; [discriminate|].
  destruct (ascii_dec y c); [discriminate|]. intros [= <- _]. eauto.
Qed.

(** [split()] does not see white space at the end, nor at the start. *)
Lemma split_ws_snoc_space (s : str) (c : ascii) :
  isspace c = true -> split_ws (s ++ [c]) = split_ws s.
Proof.
  intros Hc. induction s as [|x s IH].
  - simpl. rewrite Hc. reflexivity.
  - cbn [app split_ws]. rewrite IH.
    destruct s as [|d s]; [simpl; rewrite Hc |]; reflexivity.
Qed.

Lemma split_ws_app_spaces (s spaces : str) :
  forallb isspace spaces = true -> split_ws (s ++ spaces) = split_ws s.
Proof.
  revert s. induction spaces as [|c sp IH]; intros s H.
  - rewrite app_nil_r. reflexivity.
  - simpl in H. apply andb_true_iff in H as [Hc Hsp].
    change (s ++ c :: sp) with (s ++ [c] ++ sp).
    rewrite app_assoc, IH by exact Hsp. apply split_ws_snoc_space. exact Hc.
Qed.

Lemma split_ws_lstrip (s : str) : split_ws (lstrip s) = split_ws s.
Proof.
  unfold lstrip. induction s as [|c s IH]; [reflexivity|].
  cbn [dropwhile]. destruct (isspace c) eqn:E; [|reflexivity].
  rewrite IH. simpl. rewrite E. reflexivity.
Qed.

(** The [strip()] before [split()] changes nothing. *)
Lemma split_ws_strip (s : str) : split_ws (strip s) = split_ws s.
Proof.
  unfold strip. destruct (rstrip_spaces (lstrip s)) as (sp & E & Hsp).
  rewrite <- (split_ws_lstrip s). rewrite E at 2.
  rewrite split_ws_app_spaces by exact Hsp. reflexivity.
Qed.

Lemma split_ws_cons (c : ascii) (t : str) :
  split_ws (c :: t) =
  if isspace c then split_ws t
  else match t with
       | [] => [[c]]
       | d :: _ =>
           if isspace d then [c] :: split_ws t
           else match split_ws t with
                | w :: ws => (c :: w) :: ws
                | [] => [[c]]
                end
       end.
Proof. reflexivity. Qed.

(** The first word of a text that starts with a character that is not
    white space. *)
Lemma split_ws_first (c : ascii) (s : str) :
  isspace c = false ->
  exists rest, split_ws (c :: s) = takewhile nonspace (c :: s) :: rest.
Proof.
  revert c. induction s as [|d s IH]; intros c Hc.
  - simpl. unfold nonspace. rewrite Hc. simpl. eauto.
  - rewrite split_ws_cons, Hc.
    cbn [takewhile]. unfold nonspace at 1. rewrite Hc. cbn [negb].
    destruct (isspace d) eqn:Hd.
    + cbn [takewhile]. unfold nonspace. rewrite Hd. simpl. eauto.
    + destruct (IH d Hd) as [rest ->]. eauto.
Qed.

(** The words of [split()] are not empty and have no white space. *)
Lemma split_ws_words (s : str) :
  Forall (fun word => word <> [] /\ forallb nonspace word = true) (split_ws s).
Proof.
  induction s as [|c s IH]; [constructor|].
  rewrite split_ws_cons. destruct (isspace c) eqn:Hc; [exact IH|].
  assert (Hn : nonspace c = true) by (unfold nonspace; rewrite Hc; reflexivity).
  destruct s as [|d s].
  - repeat constructor; [discriminate | simpl; rewrite Hn; reflexivity].
  - destruct (isspace d) eqn:Hd.
    + constructor; [|exact IH].
      split; [discriminate | simpl; rewrite Hn; reflexivity].
    + destruct (split_ws (d :: s)) as [|w ws].
      * repeat constructor; [discriminate | simpl; rewrite Hn; reflexivity].
      * inversion IH as [|? ? [_ Hw] Hws]; subst.
        constructor; [|exact Hws].
        split; [discriminate | simpl; rewrite Hn; exact Hw].
Qed.

Lemma first_item_In {A} (l : list A) (x : A) : first_item l = Ok x -> In x l.
Proof. destruct l; [discriminate | intros [= ->]; apply in_eq]. Qed.

(** The first word, or [IndexError] when there is none. *)
Lemma first_item_split_ws (s : str) :
  first_item (split_ws (strip s)) =
  if has_word s then Ok (first_word s) else Raise IndexError.
Proof.
  rewrite split_ws_strip, <- split_ws_lstrip. unfold first_word.
  rewrite <- (has_word_dropwhile s). fold (lstrip s).
  destruct (lstrip s) as [|c t] eqn:L; [reflexivity|].
  pose proof (lstrip_head s c t L) as Hc.
  destruct (split_ws_first c t Hc) as [rest ->].
  simpl has_word. rewrite Hc. reflexivity.
Qed.

End Trimming.

(** ** More on the extractor *)

Section ExtractorValues.

Lemma first_word_after_raises (phrase user_input : str) (e : exn) :
  phrase <> [] -> first_word_after phrase user_input = Raise e ->
  e = IndexError.
Proof.
  intros N. unfold first_word_after, split.
  destruct phrase as [|c p]; [congruence|].
  destruct (last_item_ok (split_loop (c :: p) user_input)) as [piece ->];
    [apply split_loop_nonempty|].
  destruct (split_ws (strip piece)); simpl; [intros [= <-] | discriminate].
  reflexivity.
Qed.

(** The three sentence triggers together never raise. *)
Lemma sentence_triggers_ok (session_id user_input : str) (w : world) :
  exists w',
    (trigger I_AM_A sentence_after (lit "profession") session_id user_input ;;
     trigger I_LIVE_IN sentence_after (lit "location") session_id user_input ;;
     trigger MOVED_TO sentence_after (lit "location") session_id user_input) w
    = (w', Ok tt).
Proof.
  destruct phrases_nonempty as (_ & N2 & N3 & N4). unfold bind.
  destruct (trigger_sentence_ok I_AM_A (lit "profession") session_id
              user_input w N2) as [w2 ->].
  destruct (trigger_sentence_ok I_LIVE_IN (lit "location") session_id
              user_input w2 N3) as [w3 ->].
  destruct (trigger_sentence_ok MOVED_TO (lit "location") session_id
              user_input w3 N4) as [w4 ->].
  eauto.
Qed.

End ExtractorValues.

(** X3: on text the database can store (no NUL character in the session
    id or the utterance), the extractor raises nothing but [IndexError],
    only when "my name is" is in the lower-cased utterance, and then it
    has written nothing: the world is as it was. *)
Theorem extractor_raises_untouched
    (session_id user_input : str) (w w' : world) (e : exn) :
  storable session_id -> storable user_input ->
  extract_and_store_facts session_id user_input w = (w', Raise e) ->
  e = IndexError /\ w' = w /\
  contains MY_NAME_IS (lower user_input) = true.
Proof.
  intros _ _. rewrite extract_and_store_facts_triggers. unfold bind at 1.
  destruct (contains MY_NAME_IS (lower user_input)) eqn:C.
  - rewrite trigger_fires by exact C.
    destruct (first_word_after MY_NAME_IS user_input) as [name|e0] eqn:F.
    + destruct (upsert_user_fact_step session_id (lit "name") name w)
        as (w1 & -> & _).
      destruct (sentence_triggers_ok session_id user_input w1) as [w4 ->].
      discriminate.
    + intros [= <- <-]. split; [|auto].
      apply (first_word_after_raises MY_NAME_IS user_input); [discriminate|].
      exact F.
  - rewrite trigger_silent by exact C.
    destruct (sentence_triggers_ok session_id user_input w) as [w4 ->].
    discriminate.
Qed.

Lemma extractor_raises_untouched_witness :
  IndexError = IndexError /\ boston_world = boston_world /\
  contains MY_NAME_IS (lower NAME_AT_END) = true.
Proof.
  apply (extractor_raises_untouched SESSION_ID NAME_AT_END boston_world).
  - apply storable_by. reflexivity.
  - apply storable_by. reflexivity.
  - vm_compute. reflexivity.
Defined.

Example bob_name :
  facts_of SESSION_ID (fst (extract_and_store_facts SESSION_ID BOB initial_world))
  = [(lit "name", lit "Bob")].
Proof. vm_compute. reflexivity. Qed.

(** X5: a name the extractor derives is never empty and has no white
    space in it. *)
Theorem name_is_one_word (phrase user_input name : str) :
  first_word_after phrase user_input = Ok name ->
  name <> [] /\ forallb nonspace name = true.
Proof.
  unfold first_word_after.
  destruct (split user_input phrase) as [parts|]; [|discriminate].
  destruct (last_item parts) as [piece|]; [|discriminate].
  intros H. apply first_item_In in H.
  pose proof (split_ws_words (strip piece)) as W.
  rewrite Forall_forall in W. exact (W name H).
Qed.

Lemma name_is_one_word_witness :
  lit "Bob" <> [] /\ forallb nonspace (lit "Bob") = true.
Proof.
  apply (name_is_one_word MY_NAME_IS BOB). vm_compute. reflexivity.
Defined.

(** X6: a profession or location the extractor derives has no period in
    it and does not begin with white space (it may end with some, and it
    may be empty). *)
Theorem sentence_has_no_period (phrase user_input value : str) :
  sentence_after phrase user_input = Ok value ->
  ~ In "."%char value /\
  forall c rest, value = c :: rest -> isspace c = false.
Proof.
  destruct phrase as [|a p]; [unfold sentence_after, split; discriminate|].
  destruct (last_item_ok (split_loop (a :: p) user_input)) as [piece H];
    [apply split_loop_nonempty|].
  rewrite (sentence_after_piece (a :: p) user_input piece)
    by (try discriminate; exact H).
  intros [= <-]. split; [apply upto_absent|].
  intros c rest E. apply upto_head in E as [s' E].
  exact (strip_head piece c s' E).
Qed.

Lemma sentence_has_no_period_witness :
  ~ In "."%char (lit "doctor ") /\
  forall c rest, lit "doctor " = c :: rest -> isspace c = false.
Proof.
  apply (sentence_has_no_period I_AM_A DOCTOR). vm_compute. reflexivity.
Defined.

(** ** The extractor as a run of dictionary assignments *)

Section Assignments.

Lemma dict_get_absent (k : str) (d : dict) :
  ~ In k (keys d) -> dict_get k d = None.
Proof.
  unfold keys. induction d as [|[k0 v0] d IH]; simpl; intros N; [reflexivity|].
  destruct (str_eqb k0 k) eqn:E; [apply str_eqb_eq in E; tauto|].
  apply IH. tauto.
Qed.

Lemma dict_get_app (k : str) (a b : dict) :
  dict_get k (a ++ b) =
  match dict_get k a with Some v => Some v | None => dict_get k b end.
Proof.
  induction a as [|[k0 v0] a IH]; simpl; [reflexivity|].
  destruct (str_eqb k0 k); [reflexivity | exact IH].
Qed.

Lemma dict_get_del (k k' : str) (d : dict) :
  dict_get k' (dict_del k d) = if str_eqb k k' then None else dict_get k' d.
Proof.
  unfold dict_del. induction d as [|[k0 v0] d IH]; simpl.
  - destruct (str_eqb k k'); reflexivity.
  - destruct (str_eqb k0 k) eqn:E0; simpl.
    + apply str_eqb_eq in E0. subst k0. rewrite IH.
      destruct (str_eqb k k'); reflexivity.
    + destruct (str_eqb k0 k') eqn:E1; [|exact IH].
      apply str_eqb_eq in E1. subst k0.
      assert (E : str_eqb k k' = false).
      { apply str_eqb_neq. apply str_eqb_neq in E0. congruence. }
      rewrite E. reflexivity.
Qed.

(** The last write to a key is the value it has. *)
Lemma dict_get_move (k k' v : str) (d : dict) :
  dict_get k' (dict_move k v d) =
  if str_eqb k k' then Some v else dict_get k' d.
Proof.
  unfold dict_move. rewrite dict_get_app, dict_get_del. simpl.
  destruct (str_eqb k k'); [reflexivity|].
  destruct (dict_get k' d); reflexivity.
Qed.

Lemma keys_move_in (k k' v : str) (d : dict) :
  In k' (keys (dict_move k v d)) <-> k' = k \/ In k' (keys d).
Proof.
  unfold keys, dict_move, dict_del. rewrite map_app, in_app_iff. simpl.
  rewrite !in_map_iff. split.
  - intros [(p & E & Hp) | [E | []]]; [|auto].
    apply filter_In in Hp as [Hp _]. right. eauto.
  - intros [E | (p & E & Hp)]; [auto|].
    destruct (str_eqb (fst p) k) eqn:Ek.
    + apply str_eqb_eq in Ek. right. left. congruence.
    + left. exists p. split; [exact E|]. apply filter_In.
      rewrite Ek. auto.
Qed.

Lemma assign_app (l1 l2 : list (str * str)) (d : dict) :
  assign (l1 ++ l2) d = assign l2 (assign l1 d).
Proof. unfold assign. apply fold_left_app. Qed.

Lemma dict_get_assign (k : str) (l : list (str * str)) (d : dict) :
  dict_get k (assign l d) = fold_left (overwrite k) l (dict_get k d).
Proof.
  revert d. induction l as [|[k0 v0] l IH]; intros d; [reflexivity|].
  change (assign ((k0, v0) :: l) d) with (assign l (dict_move k0 v0 d)).
  rewrite IH, dict_get_move. reflexivity.
Qed.

Lemma keys_assign_in (k : str) (l : list (str * str)) (d : dict) :
  In k (keys (assign l d)) <-> In k (map fst l) \/ In k (keys d).
Proof.
  revert d. induction l as [|[k0 v0] l IH]; intros d; simpl; [tauto|].
  change (assign ((k0, v0) :: l) d) with (assign l (dict_move k0 v0 d)).
  rewrite IH, keys_move_in. intuition congruence.
Qed.

Lemma filter_and {A} (p q : A -> bool) (l : list A) :
  filter p (filter q l) = filter (fun x => q x && p x) l.
Proof.
  induction l as [|x l IH]; [reflexivity|]. cbn [filter].
  destruct (q x); cbn [filter andb]; [destruct (p x)|]; rewrite IH; reflexivity.
Qed.

Lemma dict_without_snoc (ks : list str) (k : str) (d : dict) :
  dict_without (ks ++ [k]) d = dict_del k (dict_without ks d).
Proof.
  unfold dict_without, dict_del. rewrite filter_and.
  apply filter_ext. intros p. rewrite existsb_app. simpl.
  rewrite orb_false_r, negb_orb. reflexivity.
Qed.

Lemma dict_without_app (ks : list str) (a b : dict) :
  dict_without ks (a ++ b) = dict_without ks a ++ dict_without ks b.
Proof. unfold dict_without. apply filter_app. Qed.

Lemma dict_without_twice (ks : list str) (d : dict) :
  dict_without ks (dict_without ks d) = dict_without ks d.
Proof.
  unfold dict_without. rewrite filter_and. apply filter_ext.
  intros p. apply andb_diag.
Qed.

(** What a run of writes leaves: the entries it does not touch, in their
    order, then the entries it writes. *)
Lemma assign_split (l : list (str * str)) (d : dict) :
  assign l d = dict_without (map fst l) d ++ assign l [].
Proof.
  induction l as [|[k v] l IH] using rev_ind.
  - simpl. unfold dict_without. rewrite app_nil_r. symmetry.
    apply filter_all. reflexivity.
  - rewrite !assign_app. cbn [assign fold_left fst snd].
    fold (assign l d) (assign l []). rewrite IH at 1.
    unfold dict_move at 1 2. unfold dict_del at 1.
    rewrite filter_app. fold (dict_del k (dict_without (map fst l) d)).
    fold (dict_del k (assign l [])).
    rewrite map_app. cbn [map fst].
    rewrite dict_without_snoc, <- app_assoc. reflexivity.
Qed.

Lemma dict_without_written (l : list (str * str)) :
  dict_without (map fst l) (assign l []) = [].
Proof.
  unfold dict_without. apply filter_none. intros p Hp.
  apply negb_false_iff. apply existsb_exists.
  assert (H : In (fst p) (keys (assign l []))) by (apply in_map; exact Hp).
  apply keys_assign_in in H as [H | []].
  exists (fst p). split; [exact H | apply str_eqb_refl].
Qed.

(** The same writes a second time change nothing. *)
Lemma assign_twice (l : list (str * str)) (d : dict) :
  assign l (assign l d) = assign l d.
Proof.
  rewrite (assign_split l (assign l d)). rewrite (assign_split l d) at 1.
  rewrite dict_without_app, dict_without_twice, dict_without_written.
  rewrite app_nil_r. symmetry. apply assign_split.
Qed.

Lemma overwrite_default (k : str) (l : list (str * str)) (acc : option str) :
  fold_left (overwrite k) l acc =
  match fold_left (overwrite k) l None with
  | Some v => Some v
  | None => acc
  end.
Proof.
  revert acc. induction l as [|kv l IH]; intros acc; [reflexivity|].
  simpl. rewrite (IH (overwrite k acc kv)), (IH (overwrite k None kv)).
  unfold overwrite. destruct (fold_left _ l None); [reflexivity|].
  destruct (str_eqb (fst kv) k); reflexivity.
Qed.

Lemma facts_of_distinct (session_id : str) (w : world) :
  unique_facts w -> NoDup (keys (facts_of session_id w)).
Proof.
  intros U. rewrite (facts_of_rows session_id w U).
  apply session_keys_distinct. exact U.
Qed.

(** One trigger: the write it makes, nothing for other sessions,
    and the invariants kept. *)
Lemma trigger_assigns (phrase key session_id user_input : str)
    (derive : str -> str -> result str) (w w' : world) :
  facts_wf w ->
  trigger phrase derive key session_id user_input w = (w', Ok tt) ->
  facts_wf w' /\
  facts_of session_id w' =
    assign (write_of phrase derive key user_input) (facts_of session_id w) /\
  forall session', session' <> session_id ->
                   facts_of session' w' = facts_of session' w.
Proof.
  intros Hwf. unfold write_of.
  destruct (contains phrase (lower user_input)) eqn:C.
  - rewrite trigger_fires by exact C.
    destruct (derive phrase user_input) as [v|e]; [|discriminate].
    intros E.
    assert (Ew : w' = fst (upsert_user_fact session_id key v w))
      by (rewrite E; reflexivity).
    subst w'. split; [apply upsert_user_fact_wf; exact Hwf|]. split.
    + apply upsert_assigns. exact Hwf.
    + intros session' N. apply upsert_elsewhere; [apply Hwf | exact N].
  - rewrite trigger_silent by exact C. intros [= <-]. auto.
Qed.

End Assignments.

Section ExtractorAsAssignments.

Variables session_id user_input : str.

Lemma extract_completes (w : world) :
  name_ok user_input ->
  exists w', extract_and_store_facts session_id user_input w = (w', Ok tt).
Proof.
  intros H. rewrite extract_and_store_facts_triggers. unfold bind at 1.
  destruct (trigger_name_ok (lit "name") session_id user_input w H) as [w1 ->].
  apply sentence_triggers_ok.
Qed.

Lemma extract_raises (w w' : world) (e : exn) :
  extract_and_store_facts session_id user_input w = (w', Raise e) ->
  e = IndexError /\ w' = w /\ ~ name_ok user_input.
Proof.
  rewrite extract_and_store_facts_triggers. unfold bind at 1.
  destruct (contains MY_NAME_IS (lower user_input)) eqn:C.
  - rewrite trigger_fires by exact C.
    destruct (first_word_after MY_NAME_IS user_input) as [name|e0] eqn:F.
    + destruct (upsert_user_fact_step session_id (lit "name") name w)
        as (w1 & -> & _).
      destruct (sentence_triggers_ok session_id user_input w1) as [w4 ->].
      discriminate.
    + intros [= <- <-]. split; [|split; [reflexivity|]].
      * apply (first_word_after_raises MY_NAME_IS user_input);
          [discriminate | exact F].
      * intros H. destruct (H C) as [name Hn]. congruence.
  - rewrite trigger_silent by exact C.
    destruct (sentence_triggers_ok session_id user_input w) as [w4 ->].
    discriminate.
Qed.

Lemma extract_ok_name (w w' : world) :
  extract_and_store_facts session_id user_input w = (w', Ok tt) ->
  name_ok user_input.
Proof.
  intros E C.
  destruct (first_word_after MY_NAME_IS user_input) as [name|e] eqn:F;
    [eauto|].
  exfalso. revert E.
  rewrite extract_and_store_facts_triggers. unfold bind at 1.
  rewrite trigger_fires by exact C. rewrite F. discriminate.
Qed.

(** A run that completes: the assignments of [writes_of], in order. *)
Lemma extract_assigns (w w' : world) :
  facts_wf w ->
  extract_and_store_facts session_id user_input w = (w', Ok tt) ->
  facts_wf w' /\
  facts_of session_id w' =
    assign (writes_of user_input) (facts_of session_id w) /\
  forall session', session' <> session_id ->
                   facts_of session' w' = facts_of session' w.
Proof.
  intros W0. rewrite extract_and_store_facts_triggers. unfold bind.
  destruct (trigger MY_NAME_IS first_word_after (lit "name") session_id
              user_input w) as [w1 [[]|e]] eqn:E1; [|discriminate].
  destruct (trigger I_AM_A sentence_after (lit "profession") session_id
              user_input w1) as [w2 [[]|e]] eqn:E2; [|discriminate].
  destruct (trigger I_LIVE_IN sentence_after (lit "location") session_id
              user_input w2) as [w3 [[]|e]] eqn:E3; [|discriminate].
  intros E4.
  destruct (trigger_assigns _ _ _ _ _ _ _ W0 E1) as (W1 & A1 & O1).
  destruct (trigger_assigns _ _ _ _ _ _ _ W1 E2) as (W2 & A2 & O2).
  destruct (trigger_assigns _ _ _ _ _ _ _ W2 E3) as (W3 & A3 & O3).
  destruct (trigger_assigns _ _ _ _ _ _ _ W3 E4) as (W4 & A4 & O4).
  split; [exact W4|]. split.
  - unfold writes_of. rewrite !assign_app, A4, A3, A2, A1. reflexivity.
  - intros session' N. rewrite O4, O3, O2, O1 by exact N. reflexivity.
Qed.

Lemma writes_of_keys (k : str) :
  In k (map fst (writes_of user_input)) -> In k EXTRACTED_KEYS.
Proof.
  unfold writes_of, write_of, EXTRACTED_KEYS. rewrite !map_app, !in_app_iff.
  destruct (contains MY_NAME_IS (lower user_input));
    destruct (contains I_AM_A (lower user_input));
    destruct (contains I_LIVE_IN (lower user_input));
    destruct (contains MOVED_TO (lower user_input));
    destruct (first_word_after MY_NAME_IS user_input);
    destruct (sentence_after I_AM_A user_input);
    destruct (sentence_after I_LIVE_IN user_input);
    destruct (sentence_after MOVED_TO user_input);
    simpl; intuition (subst; auto).
Qed.

Lemma overwrite_absent (k : str) (l : list (str * str)) (acc : option str) :
  ~ In k (map fst l) -> fold_left (overwrite k) l acc = acc.
Proof.
  revert acc. induction l as [|kv l IH]; intros acc N; [reflexivity|].
  simpl in *. rewrite IH by tauto. unfold overwrite.
  destruct (str_eqb (fst kv) k) eqn:E; [apply str_eqb_eq in E; tauto|].
  reflexivity.
Qed.

(** Whatever the outcome: the invariants, the other keys, the other
    sessions, the log and the requests are as before. *)
Lemma extract_frame (w : world) :
  facts_wf w ->
  let w' := fst (extract_and_store_facts session_id user_input w) in
  facts_wf w' /\
  (forall k, ~ In k EXTRACTED_KEYS ->
             dict_get k (facts_of session_id w') =
             dict_get k (facts_of session_id w)) /\
  (forall k, In k (keys (facts_of session_id w)) ->
             In k (keys (facts_of session_id w'))) /\
  (forall session', session' <> session_id ->
                    facts_of session' w' = facts_of session' w).
Proof.
  intros W0.
  destruct (extract_and_store_facts session_id user_input w)
    as [w' [[]|e]] eqn:E; cbn [fst].
  - destruct (extract_assigns w w' W0 E) as (W' & A & O).
    split; [exact W'|]. split; [|split; [|exact O]].
    + intros k N. rewrite A, dict_get_assign. apply overwrite_absent.
      intros Hk. apply N. apply writes_of_keys. exact Hk.
    + intros k Hk. rewrite A. apply keys_assign_in. auto.
  - destruct (extract_raises w w' e E) as (_ & -> & _). auto.
Qed.

End ExtractorAsAssignments.



(** X8: on such a table, the same utterance a second time completes too
    and leaves the facts of the session as the first time did. *)
Theorem extractor_twice (session_id user_input : str) (w w1 : world) :
  facts_wf w ->
  extract_and_store_facts session_id user_input w = (w1, Ok tt) ->
  exists w2,
    extract_and_store_facts session_id user_input w1 = (w2, Ok tt) /\
    facts_of session_id w2 = facts_of session_id w1.
Proof.
  intros W E.
  destruct (extract_assigns _ _ w w1 W E) as (W1 & A1 & _).
  destruct (extract_completes session_id user_input w1
              (extract_ok_name _ _ w w1 E)) as [w2 E2].
  exists w2. split; [exact E2|].
  destruct (extract_assigns _ _ w1 w2 W1 E2) as (_ & A2 & _).
  rewrite A2, A1. apply assign_twice.
Qed.

Lemma extractor_twice_witness :
  exists w2,
    extract_and_store_facts SESSION_ID BOTH
      (fst (extract_and_store_facts SESSION_ID BOTH boston_world))
    = (w2, Ok tt) /\
    facts_of SESSION_ID w2 =
    facts_of SESSION_ID
      (fst (extract_and_store_facts SESSION_ID BOTH boston_world)).
Proof.
  apply (extractor_twice SESSION_ID BOTH boston_world);
    [exact boston_world_wf | reflexivity].
Defined.

(** X9: on such a table, whether the extractor completes or raises, it
    leaves every key other than name, profession and location with the
    value it had, removes no key, changes no fact of another session, and
    leaves the conversation log and the requests alone. *)
Theorem extractor_frame (session_id user_input : str) (w : world) :
  facts_wf w ->
  let w' := fst (extract_and_store_facts session_id user_input w) in
  (forall k, ~ In k EXTRACTED_KEYS ->
             dict_get k (facts_of session_id w') =
             dict_get k (facts_of session_id w)) /\
  (forall k, In k (keys (facts_of session_id w)) ->
             In k (keys (facts_of session_id w'))) /\
  (forall session', session' <> session_id ->
                    facts_of session' w' = facts_of session' w) /\
  conversations w' = conversations w /\
  requests w' = requests w.
Proof.
  intros W w'.
  destruct (extract_frame session_id user_input w W) as (_ & A & B & C).
  destruct (extract_and_store_facts_step session_id user_input w)
    as (Hc & _ & Hr & _).
  repeat split; assumption.
Qed.

Lemma extractor_frame_witness :
  (forall k, ~ In k EXTRACTED_KEYS ->
             dict_get k (facts_of SESSION_ID
               (fst (extract_and_store_facts SESSION_ID BOTH boston_world))) =
             dict_get k (facts_of SESSION_ID boston_world)) /\
  (forall k, In k (keys (facts_of SESSION_ID boston_world)) ->
             In k (keys (facts_of SESSION_ID
               (fst (extract_and_store_facts SESSION_ID BOTH boston_world))))) /\
  (forall session', session' <> SESSION_ID ->
     facts_of session'
       (fst (extract_and_store_facts SESSION_ID BOTH boston_world))
     = facts_of session' boston_world) /\
  conversations (fst (extract_and_store_facts SESSION_ID BOTH boston_world))
    = conversations boston_world /\
  requests (fst (extract_and_store_facts SESSION_ID BOTH boston_world))
    = requests boston_world.
Proof.
  apply (extractor_frame SESSION_ID BOTH boston_world). exact boston_world_wf.
Defined.

(** ** What a run of the extractor leaves under a key *)

Section StoredValues.

Variables session_id user_input : str.

(** The value of a key after a run that completes: the last write to the
    key, or what the key had. *)
Lemma extract_value (k : str) (w w' : world) :
  facts_wf w ->
  extract_and_store_facts session_id user_input w = (w', Ok tt) ->
  dict_get k (facts_of session_id w') =
  fold_left (overwrite k) (writes_of user_input)
            (dict_get k (facts_of session_id w)).
Proof.
  intros W E.
  destruct (extract_assigns session_id user_input w w' W E) as (_ & A & _).
  rewrite A. apply dict_get_assign.
Qed.

Lemma overwrite_write_other (k phrase key : str)
    (derive : str -> str -> result str) (acc : option str) :
  key <> k ->
  fold_left (overwrite k) (write_of phrase derive key user_input) acc = acc.
Proof.
  intros N. unfold write_of.
  destruct (contains phrase (lower user_input)); [|reflexivity].
  destruct (derive phrase user_input); [|reflexivity].
  simpl. unfold overwrite. simpl.
  apply str_eqb_neq in N. rewrite N. reflexivity.
Qed.

Lemma overwrite_write_fires (phrase key value : str)
    (derive : str -> str -> result str) (acc : option str) :
  contains phrase (lower user_input) = true ->
  derive phrase user_input = Ok value ->
  fold_left (overwrite key) (write_of phrase derive key user_input) acc
  = Some value.
Proof.
  intros C D. unfold write_of. rewrite C, D. simpl. unfold overwrite. simpl.
  rewrite str_eqb_refl. reflexivity.
Qed.

Lemma overwrite_write_silent (k phrase key : str)
    (derive : str -> str -> result str) (acc : option str) :
  contains phrase (lower user_input) = false ->
  fold_left (overwrite k) (write_of phrase derive key user_input) acc = acc.
Proof. intros C. unfold write_of. rewrite C. reflexivity. Qed.

(** The sentence after the text [after] of a phrase. *)
Lemma sentence_after_text (phrase after : str) :
  unbordered phrase -> phrase <> [] ->
  text_after phrase user_input after ->
  sentence_after phrase user_input = Ok (code_sentence after).
Proof.
  intros Hub Hne [(pre & Hu & Hlast) | (Habs & ->)];
    apply sentence_after_piece; try exact Hne.
  - exact (last_item_split_loop phrase Hub Hne user_input pre after Hu Hlast).
  - rewrite split_loop_absent by exact Habs. reflexivity.
Qed.


(** What the extractor leaves under the key of a trigger that fired and
    derived [value], when no later trigger wrote the key. *)
Lemma extract_stores (phrase key value : str) (w w' : world) :
  In (phrase, key) TRIGGERS ->
  contains phrase (lower user_input) = true ->
  (phrase = MY_NAME_IS ->
   first_word_after MY_NAME_IS user_input = Ok value) ->
  (phrase <> MY_NAME_IS -> sentence_after phrase user_input = Ok value) ->
  (phrase = I_LIVE_IN -> contains MOVED_TO (lower user_input) = false) ->
  facts_wf w ->
  extract_and_store_facts session_id user_input w = (w', Ok tt) ->
  dict_get key (facts_of session_id w') = Some value.
Proof.
  intros Hin C Hname Hsent Hlive W E.
  rewrite (extract_value key w w' W E). unfold writes_of.
  rewrite !fold_left_app.
  unfold TRIGGERS, SENTENCE_TRIGGERS in Hin. simpl in Hin.
  destruct Hin as [H | [H | [H | [H | []]]]]; injection H as <- <-.
  - rewrite (overwrite_write_fires MY_NAME_IS (lit "name") value)
      by (exact C || (apply Hname; reflexivity)).
    rewrite !overwrite_write_other by discriminate. reflexivity.
  - rewrite (overwrite_write_fires I_AM_A (lit "profession") value)
      by (exact C || (apply Hsent; discriminate)).
    rewrite !overwrite_write_other by discriminate. reflexivity.
  - rewrite (overwrite_write_silent _ MOVED_TO) by (apply Hlive; reflexivity).
    apply overwrite_write_fires; [exact C | apply Hsent; discriminate].
  - apply overwrite_write_fires; [exact C | apply Hsent; discriminate].
Qed.

End StoredValues.

(** ** Claims about the value a run of the extractor stores *)

(** C6, as the code has it: when the phrase of a sentence trigger
    ("i am a", "i live in", "moved to") occurs verbatim in the utterance,
    [post] being the text after its last occurrence, and the extractor
    completes, the key of the trigger holds [post] trimmed of surrounding
    white space and THEN cut at its first period (the period not
    included); for "i live in" provided "moved to" does not match as well,
    since that later trigger writes the same key. *)
Theorem sentence_trigger_value
    (phrase key session_id user_input pre post : str) (w w' : world) :
  In (phrase, key) SENTENCE_TRIGGERS ->
  user_input = pre ++ phrase ++ post ->
  contains phrase (tl (phrase ++ post)) = false ->
  (phrase = I_LIVE_IN -> contains MOVED_TO (lower user_input) = false) ->
  facts_wf w ->
  extract_and_store_facts session_id user_input w = (w', Ok tt) ->
  dict_get key (facts_of session_id w') = Some (code_sentence post).
Proof.
  intros Hin Hu Hlast Hlive W E.
  assert (Hp : unbordered phrase /\ phrase <> [] /\ lower phrase = phrase
               /\ phrase <> MY_NAME_IS).
  { unfold SENTENCE_TRIGGERS in Hin. simpl in Hin.
    destruct Hin as [H | [H | [H | []]]]; injection H as <- <-;
      (split; [apply unborderedb_sound; reflexivity
              | split; [discriminate | split; [reflexivity | discriminate]]]). }
  destruct Hp as (Hub & Hne & Hlow & Hnn).
  apply (extract_stores session_id user_input phrase key (code_sentence post) w w').
  - right. exact Hin.
  - apply contains_lower; [exact Hlow|]. apply contains_iff. eauto.
  - intros F. contradiction.
  - intros _. apply sentence_after_text; [exact Hub | exact Hne |].
    left. exists pre. split; [exact Hu | exact Hlast].
  - exact Hlive.
  - exact W.
  - exact E.
Qed.

Lemma sentence_trigger_value_witness :
  dict_get (lit "profession")
    (facts_of SESSION_ID
       (fst (extract_and_store_facts SESSION_ID PILOT boston_world)))
  = Some (code_sentence (lit " pilot . i live in Rome")).
Proof.
  apply (sentence_trigger_value I_AM_A (lit "profession") SESSION_ID PILOT
           (lit "my name is Al and ") (lit " pilot . i live in Rome")
           boston_world).
  - left. reflexivity.
  - reflexivity.
  - vm_compute. reflexivity.
  - intros F. vm_compute in F. discriminate F.
  - exact boston_world_wf.
  - vm_compute. reflexivity.
Defined.

(** Why "i live in" needs the side condition: "moved to" runs later and
    writes the same key, wherever it stands in the utterance. *)
Example moved_to_overwrites_i_live_in :
  dict_get (lit "location")
    (facts_of SESSION_ID
       (fst (extract_and_store_facts SESSION_ID OSLO_ROME initial_world)))
  = Some (lit "Oslo").
Proof. vm_compute. reflexivity. Qed.







(** X4: on text the database can store, when "my name is" occurs verbatim
    in the utterance, [post] being the text after its last occurrence:
    the extractor raises [IndexError] and stores nothing when [post] is
    empty or all white space, and otherwise completes with the first word
    of [post], in its original case, as the name. *)
Theorem name_trigger_value
    (session_id user_input pre post : str) (w : world) :
  storable session_id -> storable user_input ->
  user_input = pre ++ MY_NAME_IS ++ post ->
  contains MY_NAME_IS (tl (MY_NAME_IS ++ post)) = false ->
  facts_wf w ->
  if has_word post
  then exists w',
         extract_and_store_facts session_id user_input w = (w', Ok tt) /\
         dict_get (lit "name") (facts_of session_id w')
         = Some (first_word post)
  else extract_and_store_facts session_id user_input w
       = (w, Raise IndexError).
Proof.
  intros _ _ Hu Hlast W.
  assert (Hfires : contains MY_NAME_IS (lower user_input) = true).
  { apply contains_lower; [reflexivity|]. apply contains_iff. eauto. }
  assert (Hpiece : last_item (split_loop MY_NAME_IS user_input) = Ok post).
  { apply (last_item_split_loop MY_NAME_IS) with (a := pre);
      [apply unborderedb_sound; reflexivity | discriminate | exact Hu
      | exact Hlast]. }
  pose proof (first_word_after_piece MY_NAME_IS user_input post) as F.
  rewrite first_item_split_ws in F.
  destruct (has_word post).
  - assert (F' : first_word_after MY_NAME_IS user_input = Ok (first_word post))
      by (apply F; [discriminate | exact Hpiece]).
    destruct (extract_completes session_id user_input w) as [w' E].
    { intros _. eauto. }
    exists w'. split; [exact E|].
    apply (extract_stores session_id user_input MY_NAME_IS (lit "name")
             (first_word post) w w'); try assumption.
    + left. reflexivity.
    + intros _. exact F'.
    + intros N. exfalso. apply N. reflexivity.
    + intros N. discriminate N.
  - rewrite extract_and_store_facts_triggers. unfold bind at 1.
    rewrite trigger_fires by exact Hfires.
    rewrite F by (try discriminate; exact Hpiece). reflexivity.
Qed.

Lemma name_trigger_value_witness :
  if has_word (lit "   Bob Smith.")
  then exists w',
         extract_and_store_facts SESSION_ID BOB initial_world = (w', Ok tt) /\
         dict_get (lit "name") (facts_of SESSION_ID w')
         = Some (first_word (lit "   Bob Smith."))
  else extract_and_store_facts SESSION_ID BOB initial_world
       = (initial_world, Raise IndexError).
Proof.
  apply (name_trigger_value SESSION_ID BOB (lit "call me Al, my name is Robert, ")
           (lit "   Bob Smith.") initial_world).
  - apply storable_by. reflexivity.
  - apply storable_by. reflexivity.
  - reflexivity.
  - reflexivity.
  - repeat split; (intros ? [] || constructor || idtac).
Defined.

(** A no-break space after "my name is" is white space to Python: no word
    follows and the extractor raises. *)
Example name_then_no_break_space :
  extract_and_store_facts SESSION_ID
    (lit "my name is" ++ [ascii_of_nat 160]) initial_world
  = (initial_world, Raise IndexError).
Proof. vm_compute. reflexivity. Qed.

(** ** More on the log and the turn *)

Section LogAndTurn.

Lemma session_rows_saved_at (session_id role content : str) (w : world) :
  session_rows session_id (fst (save_message session_id role content w)) =
  session_rows session_id w ++
  [mkConversation (conversations_id_seq w) session_id role content
                  (clock w + 1)].
Proof.
  rewrite save_message_run. unfold session_rows.
  cbn [fst conversations]. rewrite filter_app. cbn [filter].
  unfold of_session at 2. cbn [conv_session_id].
  rewrite str_eqb_refl. reflexivity.
Qed.

Lemma session_rows_saved_elsewhere (session_id session' role content : str)
    (w : world) :
  session' <> session_id ->
  session_rows session' (fst (save_message session_id role content w)) =
  session_rows session' w.
Proof.
  intros N. rewrite save_message_run. unfold session_rows.
  cbn [fst conversations]. rewrite filter_app. cbn [filter].
  unfold of_session at 2. cbn [conv_session_id].
  assert (E : str_eqb session_id session' = false)
    by (apply str_eqb_neq; congruence).
  rewrite E. apply app_nil_r.
Qed.

(** What [get_last_messages] returns depends on the rows of the session
    only. *)
Lemma get_last_messages_rows (session_id : str) (limit : Z) (w w' : world) :
  session_rows session_id w' = session_rows session_id w ->
  snd (get_last_messages session_id limit w') =
  snd (get_last_messages session_id limit w).
Proof.
  intros E. unfold get_last_messages, bind, select_last, ret. simpl.
  destruct ((limit <? 0) || (BIGINT_MAX <? limit)); [reflexivity|]. simpl.
  fold (session_rows session_id w') (session_rows session_id w).
  rewrite E. reflexivity.
Qed.

(** The rows a turn adds to the log of its session. *)
Lemma log_of_app (w w' : world) (rows : list conversation) :
  conversations w' = conversations w ++ rows ->
  Forall (fun r => conv_session_id r = SESSION_ID) rows ->
  log_of SESSION_ID w' = log_of SESSION_ID w ++ map entry_of rows.
Proof.
  intros E H. unfold log_of, session_rows. rewrite E, filter_app, map_app.
  assert (F : filter (of_session SESSION_ID) rows = rows).
  { clear E. induction H as [|r rows Hr _ IH]; [reflexivity|].
    cbn [filter]. unfold of_session at 1.
    rewrite Hr, str_eqb_refl, IH. reflexivity. }
  rewrite F. reflexivity.
Qed.

Variable chat : list message -> result str.

(** A turn that gets a reply. *)
Lemma chat_with_memory_reply (user_input reply : str) (w w1 : world) :
  extract_and_store_facts SESSION_ID user_input w = (w1, Ok tt) ->
  chat (assembled_messages user_input
          (fst (save_message SESSION_ID (lit "user") user_input w1)))
    = Ok reply ->
  exists w',
    chat_with_memory chat user_input w = (w', Ok reply) /\
    conversations w' =
      conversations w ++
      [mkConversation (conversations_id_seq w) SESSION_ID (lit "user")
                      user_input (clock w1 + 1);
       mkConversation (conversations_id_seq w + 1) SESSION_ID
                      (lit "assistant") reply (clock w1 + 1 + 1 + 1 + 1)] /\
    user_facts w' = user_facts w1 /\
    user_facts_id_seq w' = user_facts_id_seq w1.
Proof.
  intros Hex Hchat.
  pose proof (extract_and_store_facts_step SESSION_ID user_input w) as S.
  rewrite Hex in S. simpl in S. destruct S as (Hc & Hs & _).
  rewrite (chat_with_memory_run chat user_input w w1 Hex). cbv zeta.
  rewrite Hchat. eexists. split; [reflexivity|].
  simpl. rewrite Hc, Hs, <- app_assoc. repeat split.
Qed.



(** A turn keeps the primary key and the one row per (session, key). *)
Lemma chat_with_memory_wf (user_input : str) (w : world) :
  facts_wf w -> facts_wf (fst (chat_with_memory chat user_input w)).
Proof.
  intros W.
  pose proof (extract_frame SESSION_ID user_input w W) as F.
  destruct (extract_and_store_facts SESSION_ID user_input w)
    as [w1 [[]|e]] eqn:Hex; cbn [fst] in F; destruct F as (W1 & _).
  - rewrite (chat_with_memory_run chat user_input w w1 Hex). cbv zeta.
    destruct (chat _); exact W1.
  - rewrite (chat_with_memory_raise chat user_input w w1 e Hex). exact W1.
Qed.

End LogAndTurn.

Lemma reachable_wf (w : world) : reachable w -> log_ok w /\ facts_wf w.
Proof.
  intros R. split; [apply reachable_ok; exact R|].
  induction R as [|chat user_input w _ IH].
  - unfold facts_wf, unique_facts, facts_pk_ok. simpl.
    repeat split; constructor.
  - apply chat_with_memory_wf. exact IH.
Qed.

(** X10: on a chronological log, for a limit of at least 1 that fits a
    bigint, [get_last_messages] right after [save_message] for the same session
    returns the message just saved as its last entry, after the last
    [limit - 1] entries the log of the session had. *)
Theorem saved_message_is_last
    (session_id role content : str) (limit : Z) (w : world) :
  log_ok w -> 1 <= limit <= BIGINT_MAX ->
  snd (get_last_messages session_id limit
         (fst (save_message session_id role content w))) =
  Ok (lastn (Z.to_nat (limit - 1)) (log_of session_id w)
      ++ [mkEntry role content]).
Proof.
  intros Hok Hl.
  rewrite get_last_messages_run;
    [| lia | apply (save_message_log_ok session_id role content w Hok)].
  cbn [snd]. rewrite session_rows_saved_at.
  replace (Z.to_nat limit) with (S (Z.to_nat (limit - 1))) by lia.
  rewrite lastn_snoc, map_app. unfold log_of. rewrite lastn_map. reflexivity.
Qed.

Lemma three_messages_ok : log_ok three_messages.
Proof.
  split; [exact three_messages_chronological|].
  unfold three_messages. simpl. repeat constructor; simpl; lia.
Defined.

Lemma saved_message_is_last_witness :
  snd (get_last_messages SESSION_ID 2
         (fst (save_message SESSION_ID (lit "user") (lit "four")
                 three_messages))) =
  Ok (lastn (Z.to_nat (2 - 1)) (log_of SESSION_ID three_messages)
      ++ [mkEntry (lit "user") (lit "four")]).
Proof.
  apply saved_message_is_last; [exact three_messages_ok|].
  split; [lia | vm_compute; discriminate].
Defined.

(** X11: a message saved for one session changes nothing in what
    [get_last_messages] returns for another session, whatever the limit. *)
Theorem saved_message_other_session
    (session_id session' role content : str) (limit : Z) (w : world) :
  session' <> session_id ->
  snd (get_last_messages session' limit
         (fst (save_message session_id role content w))) =
  snd (get_last_messages session' limit w).
Proof.
  intros N. apply get_last_messages_rows.
  apply session_rows_saved_elsewhere. exact N.
Qed.

Lemma saved_message_other_session_witness :
  snd (get_last_messages (lit "other") 5
         (fst (save_message SESSION_ID (lit "user") (lit "four")
                 three_messages))) =
  snd (get_last_messages (lit "other") 5 three_messages).
Proof. apply saved_message_other_session. discriminate. Defined.

(** X12: in a turn whose extraction completes and whose request the
    endpoint answers, the reply is returned, the log gains the user row
    and then the assistant row with the reply, both of the session, and
    the facts are as the extraction left them. *)
Theorem turn_with_reply
    (chat : list message -> result str) (user_input reply : str)
    (w w1 : world) :
  extract_and_store_facts SESSION_ID user_input w = (w1, Ok tt) ->
  chat (assembled_messages user_input
          (fst (save_message SESSION_ID (lit "user") user_input w1)))
    = Ok reply ->
  exists w',
    chat_with_memory chat user_input w = (w', Ok reply) /\
    conversations w' =
      conversations w ++
      [mkConversation (conversations_id_seq w) SESSION_ID (lit "user")
                      user_input (clock w1 + 1);
       mkConversation (conversations_id_seq w + 1) SESSION_ID
                      (lit "assistant") reply (clock w1 + 1 + 1 + 1 + 1)] /\
    log_of SESSION_ID w' =
      log_of SESSION_ID w ++ exchange (user_input, reply) /\
    user_facts w' = user_facts w1.
Proof.
  intros Hex Hchat.
  destruct (chat_with_memory_reply chat user_input reply w w1 Hex Hchat)
    as (w' & E & Hc & Hf & _).
  exists w'. split; [exact E|]. split; [exact Hc|]. split; [|exact Hf].
  rewrite (log_of_app w w' _ Hc) by (repeat constructor). reflexivity.
Qed.

Lemma turn_with_reply_witness :
  exists w',
    chat_with_memory (fun _ => Ok (lit "Hello")) DENVER three_messages
      = (w', Ok (lit "Hello")) /\
    conversations w' =
      conversations three_messages ++
      [mkConversation (conversations_id_seq three_messages) SESSION_ID
                      (lit "user") DENVER (clock denver_world + 1);
       mkConversation (conversations_id_seq three_messages + 1) SESSION_ID
                      (lit "assistant") (lit "Hello")
                      (clock denver_world + 1 + 1 + 1 + 1)] /\
    log_of SESSION_ID w' =
      log_of SESSION_ID three_messages ++ exchange (DENVER, lit "Hello") /\
    user_facts w' = user_facts denver_world.
Proof.
  apply (turn_with_reply (fun _ => Ok (lit "Hello")) DENVER (lit "Hello")
           three_messages denver_world); reflexivity.
Defined.

(** X13: on an utterance the database can store (no NUL character), a
    turn whose extraction raises ends with that exception, which is
    [IndexError], before anything is logged or sent: the world is as it
    was. *)
Theorem turn_extraction_raises
    (chat : list message -> result str) (user_input : str) (w : world)
    (e : exn) :
  storable user_input ->
  snd (extract_and_store_facts SESSION_ID user_input w) = Raise e ->
  chat_with_memory chat user_input w = (w, Raise e) /\ e = IndexError.
Proof.
  intros _ H.
  destruct (extract_and_store_facts SESSION_ID user_input w) as [w1 r] eqn:Hex.
  simpl in H. subst r.
  destruct (extract_raises SESSION_ID user_input w w1 e Hex) as (He & -> & _).
  split; [|exact He].
  exact (chat_with_memory_raise chat user_input w w e Hex).
Qed.

Lemma turn_extraction_raises_witness :
  chat_with_memory failing_chat NAME_AT_END three_messages
    = (three_messages, Raise IndexError) /\ IndexError = IndexError.
Proof.
  apply turn_extraction_raises.
  - apply storable_by. reflexivity.
  - vm_compute. reflexivity.
Defined.

(** X14: every world reached from the fresh one by turns, with whatever
    endpoint and utterances, has a chronological log with no time stamp in
    the future, distinct fact ids below the counter, and at most one fact
    row per (session, key). *)
Theorem reachable_invariants (w : world) :
  reachable w -> log_ok w /\ facts_wf w.
Proof. exact (reachable_wf w). Qed.

Lemma reachable_invariants_witness :
  log_ok (fst (chat_with_memory failing_chat DENVER initial_world)) /\
  facts_wf (fst (chat_with_memory failing_chat DENVER initial_world)).
Proof.
  apply reachable_invariants. apply reachable_turn. apply reachable_initial.
Defined.

(** ** The command line *)

Section CommandLine.

Variable chat : list message -> result str.

Lemma loop_exit (line : str) (rest : list str) (out : list output) (w : world) :
  is_exit line = true ->
  loop chat (line :: rest) out w =
  (mkRun rest (out ++ [Prompt (lit "You: ")]) w, Exit).
Proof. intros H. unfold is_exit in H. cbn [loop]. rewrite H. reflexivity. Qed.

Lemma loop_turn (line : str) (rest : list str) (out : list output) (w : world) :
  is_exit line = false ->
  loop chat (line :: rest) out w =
  match chat_with_memory chat line w with
  | (w', Ok reply) =>
      loop chat rest
        ((out ++ [Prompt (lit "You: ")]) ++ [Line (lit "Bot: " ++ reply)]) w'
  | (w', Raise e) =>
      (mkRun rest (out ++ [Prompt (lit "You: ")]) w', Uncaught e)
  end.
Proof. intros H. unfold is_exit in H. cbn [loop]. rewrite H. reflexivity. Qed.


(** The loop keeps the invariants of the tables. *)
Lemma loop_invariants (lines : list str) (out : list output) (w : world) :
  (log_ok w /\ facts_wf w) ->
  log_ok (run_world (fst (loop chat lines out w))) /\
  facts_wf (run_world (fst (loop chat lines out w))).
Proof.
  revert out w. induction lines as [|line rest IH]; intros out w [L W].
  - simpl. auto.
  - destruct (is_exit line) eqn:X.
    + rewrite loop_exit by exact X. simpl. auto.
    + rewrite loop_turn by exact X.
      pose proof (chat_with_memory_ok chat line w (conj L (proj1 W))) as [L' _].
      pose proof (chat_with_memory_wf chat line w W) as W'.
      destruct (chat_with_memory chat line w) as [w' [reply|e]]; simpl in *.
      * apply IH. auto.
      * auto.
Qed.

End CommandLine.



(** "exit" followed by a no-break space ends the run as "exit" does. *)
Example exit_with_no_break_space :
  is_exit (lit "Exit" ++ [ascii_of_nat 160]) = true.
Proof. vm_compute. reflexivity. Qed.

Example session_example :
  main (lit "Chatbot") echo_chat SESSION_LINES initial_world =
  (mkRun [lit "ignored"]
     [Line (lit "Chatbot");
      Prompt (lit "You: "); Line (lit "Bot: You said: I moved to Denver.");
      Prompt (lit "You: "); Line (lit "Bot: You said: hello there");
      Prompt (lit "You: ")]
     (run_world (fst (main (lit "Chatbot") echo_chat SESSION_LINES
                        initial_world))),
   Exit) /\
  log_of SESSION_ID
    (run_world (fst (main (lit "Chatbot") echo_chat SESSION_LINES
                       initial_world))) =
  [mkEntry (lit "user") (lit "I moved to Denver.");
   mkEntry (lit "assistant") (lit "You said: I moved to Denver.");
   mkEntry (lit "user") (lit "hello there");
   mkEntry (lit "assistant") (lit "You said: hello there")].
Proof. split; vm_compute; reflexivity. Qed.

(** X16: a run of the command line from a world with a chronological log
    and a fact table that respects the primary key and has at most one row
    per (session, key) ends, however it ends, in such a world. *)
Theorem main_keeps_invariants
    (banner : str) (chat : list message -> result str) (lines : list str)
    (w : world) :
  log_ok w /\ facts_wf w ->
  log_ok (run_world (fst (main banner chat lines w))) /\
  facts_wf (run_world (fst (main banner chat lines w))).
Proof. exact (loop_invariants chat lines [Line banner] w). Qed.

Lemma main_keeps_invariants_witness :
  log_ok (run_world (fst (main (lit "Chatbot") echo_chat SESSION_LINES
                            initial_world))) /\
  facts_wf (run_world (fst (main (lit "Chatbot") echo_chat SESSION_LINES
                              initial_world))).
Proof.
  apply main_keeps_invariants.
  split; [apply initial_world_ok|].
  unfold facts_wf, unique_facts, facts_pk_ok. simpl.
  repeat split; constructor.
Defined.

(** ** When the extractor raises, and how long a request is *)

Section LastOccurrence.

(** A phrase that occurs has a last occurrence. *)
Lemma last_occurrence_exists (p s : str) :
  p <> [] -> contains p s = true ->
  exists pre post,
    s = pre ++ p ++ post /\ contains p (tl (p ++ post)) = false.
Proof.
  intros N. induction s as [s IH] using (induction_ltof1 _ (@length ascii)).
  unfold ltof in IH. intros H.
  apply contains_iff in H as (a & b & Hs).
  destruct (contains p (tl (p ++ b))) eqn:C; [|eauto].
  destruct p as [|c p']; [congruence|].
  cbn [app tl] in C.
  destruct (IH (p' ++ b)) as (pre & post & E & L).
  - rewrite Hs, !length_app. simpl. lia.
  - exact C.
  - exists (a ++ c :: pre), post. split; [|exact L].
    rewrite Hs. cbn [app]. rewrite E, <- app_assoc. reflexivity.
Qed.

Lemma name_trigger_at (session_id user_input pre post : str) (w : world) :
  user_input = pre ++ MY_NAME_IS ++ post ->
  contains MY_NAME_IS (tl (MY_NAME_IS ++ post)) = false ->
  contains MY_NAME_IS (lower user_input) = true /\
  first_word_after MY_NAME_IS user_input =
    if has_word post then Ok (first_word post) else Raise IndexError.
Proof.
  intros Hu Hlast. split.
  - apply contains_lower; [reflexivity|]. apply contains_iff. eauto.
  - assert (Hpiece : last_item (split_loop MY_NAME_IS user_input) = Ok post).
    { apply (last_item_split_loop MY_NAME_IS) with (a := pre);
        [apply unborderedb_sound; reflexivity | discriminate | exact Hu
        | exact Hlast]. }
    rewrite (first_word_after_piece MY_NAME_IS user_input post)
      by (try discriminate; exact Hpiece).
    apply first_item_split_ws.
Qed.

End LastOccurrence.

(** X18: on text the database can store (no NUL character in the session
    id or the utterance), the extractor raises exactly when "my name is"
    occurs verbatim in the utterance and the text after its last
    occurrence is empty or all white space. *)
Theorem extractor_raises_iff (session_id user_input : str) (w : world) :
  storable session_id -> storable user_input ->
  (exists e, snd (extract_and_store_facts session_id user_input w) = Raise e)
  <->
  (exists pre post,
     user_input = pre ++ MY_NAME_IS ++ post /\
     contains MY_NAME_IS (tl (MY_NAME_IS ++ post)) = false /\
     has_word post = false).
Proof.
  intros _ _. split.
  - intros [e H].
    destruct (extract_and_store_facts session_id user_input w)
      as [w' r] eqn:E. simpl in H. subst r.
    destruct (extract_raises session_id user_input w w' e E) as (_ & _ & Hn).
    destruct (contains MY_NAME_IS (lower user_input)) eqn:C.
    2:{ exfalso. apply Hn. intros C'. congruence. }
    destruct (contains MY_NAME_IS user_input) eqn:V.
    + destruct (last_occurrence_exists MY_NAME_IS user_input)
        as (pre & post & Hu & Hl); [discriminate | exact V |].
      exists pre, post. split; [exact Hu|]. split; [exact Hl|].
      destruct (name_trigger_at session_id user_input pre post w Hu Hl)
        as [_ F].
      destruct (has_word post); [|reflexivity].
      exfalso. apply Hn. intros _. eauto.
    + exfalso. apply Hn. intros _.
      assert (Hpiece : last_item (split_loop MY_NAME_IS user_input)
                       = Ok user_input)
        by (rewrite split_loop_absent by exact V; reflexivity).
      rewrite (first_word_after_piece MY_NAME_IS user_input user_input)
        by (try discriminate; exact Hpiece).
      rewrite first_item_split_ws.
      rewrite (contains_lower_has_word MY_NAME_IS user_input) by
        (reflexivity || exact C).
      eauto.
  - intros (pre & post & Hu & Hl & Hw).
    destruct (name_trigger_at session_id user_input pre post w Hu Hl)
      as [C F].
    rewrite Hw in F.
    destruct (extract_and_store_facts session_id user_input w)
      as [w' [[]|e]] eqn:E; [|simpl; eauto].
    exfalso. destruct (extract_ok_name session_id user_input w w' E C)
      as [name Hn]. congruence.
Qed.

Lemma extractor_raises_iff_witness :
  exists e,
    snd (extract_and_store_facts SESSION_ID NAME_AT_END boston_world) = Raise e.
Proof.
  apply (proj2 (extractor_raises_iff SESSION_ID NAME_AT_END boston_world
                  (storable_by SESSION_ID eq_refl)
                  (storable_by NAME_AT_END eq_refl))).
  exists (lit "I live in Rome. "), (lit " "). repeat split.
Defined.

Section Request.

Variable chat : list message -> result str.

(** The one request of a turn whose extraction completes. *)
Lemma request_of_turn (user_input : str) (w w1 : world) :
  extract_and_store_facts SESSION_ID user_input w = (w1, Ok tt) ->
  requests (fst (chat_with_memory chat user_input w)) =
  requests w ++
  [assembled_messages user_input
     (fst (save_message SESSION_ID (lit "user") user_input w1))].
Proof.
  intros Hex.
  pose proof (extract_and_store_facts_step SESSION_ID user_input w) as S.
  rewrite Hex in S. simpl in S. destruct S as (_ & _ & Hr & _).
  rewrite (chat_with_memory_run chat user_input w w1 Hex). cbv zeta.
  destruct (chat _); simpl; rewrite Hr; reflexivity.
Qed.

End Request.

(** X19: in a turn whose extraction completes, on a chronological log,
    the request has two messages more than the history read, which has
    five entries or, when the log of the session had fewer than four, all
    of them and the user turn: between three and seven messages. *)
Theorem request_size
    (chat : list message -> result str) (user_input : str) (w w1 : world) :
  log_ok w ->
  extract_and_store_facts SESSION_ID user_input w = (w1, Ok tt) ->
  exists messages,
    requests (fst (chat_with_memory chat user_input w))
      = requests w ++ [messages] /\
    Z.of_nat (length messages) =
      2 + Z.min 5 (Z.of_nat (length (log_of SESSION_ID w)) + 1) /\
    (3 <= length messages <= 7)%nat.
Proof.
  intros Hok Hex.
  pose proof (extract_and_store_facts_step SESSION_ID user_input w) as S.
  rewrite Hex in S. simpl in S.
  eexists. split; [apply (request_of_turn chat user_input w w1 Hex)|].
  unfold assembled_messages.
  rewrite (history_of_saved user_input w w1 Hok S).
  rewrite !length_app, length_map, lastn_length, length_app.
  cbn [length]. set (n := length (log_of SESSION_ID w)). lia.
Qed.

Lemma request_size_witness :
  exists messages,
    requests (fst (chat_with_memory failing_chat DENVER three_messages))
      = requests three_messages ++ [messages] /\
    Z.of_nat (length messages) =
      2 + Z.min 5 (Z.of_nat (length (log_of SESSION_ID three_messages)) + 1) /\
    (3 <= length messages <= 7)%nat.
Proof.
  apply (request_size failing_chat DENVER three_messages denver_world);
    [exact three_messages_ok | reflexivity].
Defined.
